(** * Token store of the Monarch Money MCP server

    A shallow embedding of [src/monarch_mcp_server/secure_session.py]
    (class [SecureMonarchSession]) and the properties of its [.env] file
    upsert/delete, of [load_token], [get_authenticated_client] and of
    the clean-up of the legacy session files.

    Conventions of the embedding.
    - A Python [str] is a Rocq [string]; a character is the code point
      0..255 it stands for.  Text outside that range is not modelled, and
      with it the Unicode white space above U+00FF that [str.strip] also
      removes.
    - Files are opened in text mode with universal newlines on a POSIX
      host: on reading ["\r\n"] and ["\r"] become ["\n"], on writing
      nothing is translated.
    - The [dict] [env_content] keeps insertion order, which decides the
      order of the lines written back; it is an association list.
    - Effects (file system, process environment, logger, exceptions) are
      threaded through a state-and-exception monad over [world].  Which
      operating-system calls fail, and with which exception, is a
      component of the world, so that every statement holds whatever
      fails.
    - Log records keep the level and the text of the message, without
      the emoji the source puts in front of it. *)

From Stdlib Require Import Ascii String.
From stdpp Require Import base option list strings gmap.

(** ** Python string operations used by the source *)

Module Str.

Definition LF : ascii := "010"%char.
Definition CR : ascii := "013"%char.

(** ["\n"] as a one-character string. *)
Definition nl : string := String LF "".

(** [str.isspace] on one character, for code points below 256:
    TAB, LF, VT, FF, CR, FS, GS, RS, US, SPACE, NEL and NBSP. *)
Definition isspace (c : ascii) : bool :=
  match c with
  | "009" | "010" | "011" | "012" | "013"
  | "028" | "029" | "030" | "031" | " " | "133" | "160" => true
  | _ => false
  end%char.

Fixpoint lstrip (s : string) : string :=
  match s with
  | "" => ""
  | String c r => if isspace c then lstrip r else s
  end.

Fixpoint rstrip (s : string) : string :=
  match s with
  | "" => ""
  | String c r =>
      match rstrip r with
      | "" => if isspace c then "" else String c ""
      | r' => String c r'
      end
  end.

(** [s.strip()] *)
Definition strip (s : string) : string := rstrip (lstrip s).

(** [s.startswith(c)] for a one-character prefix. *)
Definition startswith (c : ascii) (s : string) : bool :=
  match s with
  | "" => false
  | String a _ => bool_decide (a = c)
  end.

(** [c in s] for a one-character needle. *)
Fixpoint contains (c : ascii) (s : string) : bool :=
  match s with
  | "" => false
  | String a r => bool_decide (a = c) || contains c r
  end.

(** [s.split(c, 1)]: at most one split, at the first occurrence of the
    separator; a list of one or two strings. *)
Fixpoint split1 (c : ascii) (s : string) : list string :=
  match s with
  | "" => [""]
  | String a r =>
      if bool_decide (a = c) then [""; r]
      else match split1 c r with
           | h :: t => String a h :: t
           | [] => [String a ""]
           end
  end.

(** Truthiness of a string: [if s:]. *)
Definition truthy (s : string) : bool :=
  match s with "" => false | _ => true end.

(** Universal-newline translation applied when a text file is read. *)
Fixpoint universal_newlines (s : string) : string :=
  match s with
  | "" => ""
  | String c r =>
      if bool_decide (c = CR) then
        match r with
        | String c' r' =>
            if bool_decide (c' = LF) then String LF (universal_newlines r')
            else String LF (universal_newlines r)
        | "" => String LF ""
        end
      else String c (universal_newlines r)
  end.

(** [for line in f]: the text cut after each ["\n"]; every line keeps
    its terminator, the last one may lack it. *)
Fixpoint iter_lines (s : string) : list string :=
  match s with
  | "" => []
  | String c r =>
      if bool_decide (c = LF) then String LF "" :: iter_lines r
      else match iter_lines r with
           | [] => [String c ""]
           | l :: ls => String c l :: ls
           end
  end.

(** The lines a text-mode read of [raw] iterates over. *)
Definition file_lines (raw : string) : list string :=
  iter_lines (universal_newlines raw).

End Str.

(** ** Exceptions and fallible results *)

Inductive exn : Type :=
| FileNotFoundError
| IsADirectoryError
| NotADirectoryError
| PermissionError
| OSError (msg : string)
| UnicodeError
| ValueError
| KeyError (key : string).

Inductive outcome (A : Type) : Type :=
| Return (a : A)
| Raise (e : exn).
Arguments Return {A} a.
Arguments Raise {A} e.

(** [str(e)], as interpolated in the log messages. *)
Definition exn_str (e : exn) : string :=
  match e with
  | FileNotFoundError => "No such file or directory"
  | IsADirectoryError => "Is a directory"
  | NotADirectoryError => "Not a directory"
  | PermissionError => "Permission denied"
  | OSError msg => msg
  | UnicodeError => "codec can't decode or encode"
  | ValueError => "not enough values to unpack"
  | KeyError key => key
  end.

(** ** The dictionary [env_content] *)

Module Dict.

(** Insertion-ordered, one pair per key. *)
Definition t : Type := list (string * string).

Definition empty : t := [].

(** [k in d] *)
Fixpoint mem (k : string) (d : t) : bool :=
  match d with
  | [] => false
  | (k', _) :: r => bool_decide (k' = k) || mem k r
  end.

(** [d.get(k)] *)
Fixpoint get (k : string) (d : t) : option string :=
  match d with
  | [] => None
  | (k', v) :: r => if bool_decide (k' = k) then Some v else get k r
  end.

(** [d[k] = v]: a key already present keeps its position and takes the
    new value, a new key goes to the end. *)
Fixpoint set (k v : string) (d : t) : t :=
  match d with
  | [] => [(k, v)]
  | (k', v') :: r =>
      if bool_decide (k' = k) then (k', v) :: r else (k', v') :: set k v r
  end.

Fixpoint remove (k : string) (d : t) : t :=
  match d with
  | [] => []
  | (k', v') :: r =>
      if bool_decide (k' = k) then r else (k', v') :: remove k r
  end.

(** [del d[k]] raises [KeyError] on a missing key. *)
Definition del (k : string) (d : t) : outcome t :=
  if mem k d then Return (remove k d) else Raise (KeyError k).

(** [d.items()] *)
Definition items (d : t) : list (string * string) := d.

Definition keys (d : t) : list string := d.*1.

End Dict.

(** ** The [.env] format: the read loop and the write loop, without I/O *)

Definition MONARCH_TOKEN_ENV_VAR : string := "MONARCH_TOKEN".

(** Body of [for line in f:] (lines 29-32 and 73-76):
    [[
      line = line.strip()
      if line and not line.startswith('#') and '=' in line:
          key, value = line.split('=', 1)
          env_content[key] = value
    ]] *)
Definition parse_line (line : string) (env_content : Dict.t) : outcome Dict.t :=
  let line := Str.strip line in
  if Str.truthy line && negb (Str.startswith "#" line) && Str.contains "=" line
  then
    match Str.split1 "=" line with
    | [key; value] => Return (Dict.set key value env_content)
    | _ => Raise ValueError
    end
  else Return env_content.

(** The whole read loop over the lines of the file. *)
Fixpoint parse_lines (lines : list string) (env_content : Dict.t)
  : outcome Dict.t :=
  match lines with
  | [] => Return env_content
  | line :: rest =>
      match parse_line line env_content with
      | Return env_content' => parse_lines rest env_content'
      | Raise e => Raise e
      end
  end.

(** [f"{key}={value}\n"] *)
Definition format_item (kv : string * string) : string :=
  kv.1 +:+ "=" +:+ kv.2 +:+ Str.nl.

(** Everything the write loop sends to the file, in order. *)
Definition serialize (d : Dict.t) : string :=
  foldr (fun kv acc => format_item kv +:+ acc) "" (Dict.items d).

(** The mapping a file with text [raw] is read as. *)
Definition parse_env (raw : string) : outcome Dict.t :=
  parse_lines (Str.file_lines raw) Dict.empty.

(** ** The world the program runs in *)

(** A path relative to the working directory, as its components:
    [".mm/mm_session.pickle"] is [[".mm"; "mm_session.pickle"]]. *)
Definition path : Type := list string.

#[local] Set Warnings "-register-all".
Inductive node : Type :=
| File (content : string)
| Dir (children : list (string * node))
| Special.   (* exists, but neither a regular file nor a directory *)

(** What is at [ENV_FILE_PATH]: a regular text file or a directory
    (other kinds of file are not modelled there). *)
Inductive env_node : Type :=
| EnvFile (raw : string)
| EnvDir.

Global Instance env_node_eq_dec : EqDecision env_node.
Proof. solve_decision. Defined.

(** The primitives that can fail for reasons outside the program
    (permissions, a full disk, undecodable bytes, ...). *)
Inductive io_op : Type :=
| OpenRead | ReadText | OpenWrite | WriteText
| Remove (p : path) | Rmdir (p : path) | Listdir (p : path).

Global Instance io_op_eq_dec : EqDecision io_op.
Proof. solve_decision. Defined.

Inductive level : Type := INFO | WARNING | ERROR.

Global Instance level_eq_dec : EqDecision level.
Proof. solve_decision. Defined.

(** - [environ]: [os.environ];
    - [env_file]: what is at [ENV_FILE_PATH], if anything;
    - [cwd]: the entries of the working directory, against which the
      legacy paths are resolved.  [ENV_FILE_PATH] is an absolute path whose
      last component is [.env]; no legacy path can denote it, so the two
      are separate components;
    - [fault]: which primitives fail, and how;
    - [log]: the records emitted through [logger], oldest first;
    - [trace]: the primitives called so far, oldest first. *)
Record world : Type := World {
  environ : gmap string string;
  env_file : option env_node;
  cwd : list (string * node);
  fault : io_op -> option exn;
  log : list (level * string);
  trace : list io_op
}.

Definition set_env_file (n : option env_node) (w : world) : world :=
  World (environ w) n (cwd w) (fault w) (log w) (trace w).
Definition set_cwd (c : list (string * node)) (w : world) : world :=
  World (environ w) (env_file w) c (fault w) (log w) (trace w).
Definition add_log (r : level * string) (w : world) : world :=
  World (environ w) (env_file w) (cwd w) (fault w) (log w ++ [r]) (trace w).
Definition add_trace (op : io_op) (w : world) : world :=
  World (environ w) (env_file w) (cwd w) (fault w) (log w) (trace w ++ [op]).

(** ** State-and-exception monad *)

Definition M (A : Type) : Type := world -> outcome A * world.

Definition ret {A} (a : A) : M A := fun w => (Return a, w).
Definition raise {A} (e : exn) : M A := fun w => (Raise e, w).
Definition bind {A B} (m : M A) (k : A -> M B) : M B :=
  fun w => match m w with
           | (Return a, w') => k a w'
           | (Raise e, w') => (Raise e, w')
           end.
(** [try: body  except Exception as e: handler(e)] *)
Definition try_except {A} (body : M A) (handler : exn -> M A) : M A :=
  fun w => match body w with
           | (Return a, w') => (Return a, w')
           | (Raise e, w') => handler e w'
           end.
Definition lift {A} (o : outcome A) : M A := fun w => (o, w).

Notation "x <- m ;; k" := (bind m (fun x => k))
  (at level 100, m at next level, right associativity).
Notation "m ;;; k" := (bind m (fun _ => k))
  (at level 100, right associativity).

(** [for x in xs: body(x)] *)
Fixpoint for_each {A} (xs : list A) (body : A -> M unit) : M unit :=
  match xs with
  | [] => ret tt
  | x :: rest => body x ;;; for_each rest body
  end.

(** A call of primitive [op]: recorded, and failing when [fault] says so. *)
Definition syscall (op : io_op) : M unit :=
  fun w => let w' := add_trace op w in
           match fault w op with
           | Some e => (Raise e, w')
           | None => (Return tt, w')
           end.

(** ** Logger *)

Definition logger (lvl : level) (msg : string) : M unit :=
  fun w => (Return tt, add_log (lvl, msg) w).

(** ** Primitives on [ENV_FILE_PATH] *)

(** [ENV_FILE_PATH.exists()] *)
Definition env_file_exists : M bool :=
  fun w => (Return (match env_file w with Some _ => true | None => false end), w).

(** [open(ENV_FILE_PATH, 'r')] followed by the iteration over the file:
    the lines read. *)
Definition read_env_lines : M (list string) :=
  syscall OpenRead ;;;
  n <- (fun w => (Return (env_file w), w)) ;;
  match n with
  | None => raise FileNotFoundError
  | Some EnvDir => raise IsADirectoryError
  | Some (EnvFile raw) => syscall ReadText ;;; ret (Str.file_lines raw)
  end.

(** [open(ENV_FILE_PATH, 'w')]: creates the file or truncates it. *)
Definition open_env_w : M unit :=
  syscall OpenWrite ;;;
  fun w => match env_file w with
           | Some EnvDir => (Raise IsADirectoryError, w)
           | _ => (Return tt, set_env_file (Some (EnvFile "")) w)
           end.

(** [f.write(s)] on the file opened by [open_env_w]. *)
Definition env_write (s : string) : M unit :=
  syscall WriteText ;;;
  fun w => match env_file w with
           | Some (EnvFile old) =>
               (Return tt, set_env_file (Some (EnvFile (old +:+ s))) w)
           | _ => (Raise (OSError "file not open for writing"), w)
           end.

(** [os.getenv(name)] *)
Definition os_getenv (name : string) : M (option string) :=
  fun w => (Return (environ w !! name), w).

(** ** Primitives on the working directory *)

Fixpoint assoc (name : string) (entries : list (string * node)) : option node :=
  match entries with
  | [] => None
  | (n, c) :: r => if bool_decide (n = name) then Some c else assoc name r
  end.

(** The node a path denotes, if any. *)
Fixpoint resolve (p : path) (entries : list (string * node)) : option node :=
  match p with
  | [] => None
  | name :: p' =>
      match p' with
      | [] => assoc name entries
      | _ :: _ =>
          match assoc name entries with
          | Some (Dir children) => resolve p' children
          | _ => None
          end
      end
  end.

(** The entries once the entry that [p] denotes is unlinked. *)
Fixpoint unlink (p : path) (entries : list (string * node))
  : list (string * node) :=
  match p with
  | [] => entries
  | name :: p' =>
      match p' with
      | [] => filter (fun e => e.1 ≠ name) entries
      | _ :: _ =>
          (fun e : string * node =>
             if bool_decide (e.1 = name) then
               match e.2 with
               | Dir children => (e.1, Dir (unlink p' children))
               | _ => e
               end
             else e) <$> entries
      end
  end.

(** [os.path.exists], [os.path.isfile], [os.path.isdir]: they never raise. *)
Definition os_path_exists (p : path) : M bool :=
  fun w => (Return (match resolve p (cwd w) with Some _ => true | None => false end), w).
Definition os_path_isfile (p : path) : M bool :=
  fun w => (Return (match resolve p (cwd w) with Some (File _) => true | _ => false end), w).
Definition os_path_isdir (p : path) : M bool :=
  fun w => (Return (match resolve p (cwd w) with Some (Dir _) => true | _ => false end), w).

(** [os.listdir(p)] *)
Definition os_listdir (p : path) : M (list string) :=
  syscall (Listdir p) ;;;
  fun w => match resolve p (cwd w) with
           | Some (Dir children) => (Return children.*1, w)
           | Some _ => (Raise NotADirectoryError, w)
           | None => (Raise FileNotFoundError, w)
           end.

(** [os.remove(p)] *)
Definition os_remove (p : path) : M unit :=
  syscall (Remove p) ;;;
  fun w => match resolve p (cwd w) with
           | Some (Dir _) => (Raise IsADirectoryError, w)
           | Some _ => (Return tt, set_cwd (unlink p (cwd w)) w)
           | None => (Raise FileNotFoundError, w)
           end.

(** [os.rmdir(p)] *)
Definition os_rmdir (p : path) : M unit :=
  syscall (Rmdir p) ;;;
  fun w => match resolve p (cwd w) with
           | Some (Dir []) => (Return tt, set_cwd (unlink p (cwd w)) w)
           | Some (Dir (_ :: _)) => (Raise (OSError "Directory not empty"), w)
           | Some _ => (Raise NotADirectoryError, w)
           | None => (Raise FileNotFoundError, w)
           end.

(** ** The consumed client library *)

(** [monarchmoney.MonarchMoney]: constructible from a token (the
    constructor may raise), with a readable [token] attribute. *)
Class MonarchMoneyAPI (Client : Type) : Type := {
  MonarchMoney : string -> outcome Client;
  mm_token : Client -> option string
}.

(** ** class SecureMonarchSession *)

Definition path_str (p : path) : string :=
  match p with
  | [] => ""
  | x :: r => foldl (fun acc y => acc +:+ "/" +:+ y) x r
  end.

Definition cleanup_paths : list path :=
  [ [".mm"; "mm_session.pickle"];
    ["monarch_session.json"];
    [".mm"] ].

(** The [try] block of the loop body of [_cleanup_old_session_files]. *)
Definition cleanup_attempt (p : path) : M unit :=
  ex <- os_path_exists p ;;
  if ex : bool then
    isf <- os_path_isfile p ;;
    if isf : bool then
      os_remove p ;;;
      logger INFO ("Cleaned up old insecure session file: " +:+ path_str p)
    else
      isd <- os_path_isdir p ;;
      if isd : bool then
        names <- os_listdir p ;;
        match names with
        | [] =>
            os_rmdir p ;;;
            logger INFO ("Cleaned up empty session directory: " +:+ path_str p)
        | _ :: _ => ret tt
        end
      else ret tt
  else ret tt.

(** One iteration of the loop: the [try] block and its handler. *)
Definition cleanup_one (p : path) : M unit :=
  try_except (cleanup_attempt p)
    (fun e => logger WARNING
       ("Could not clean up " +:+ path_str p +:+ ": " +:+ exn_str e)).

Definition _cleanup_old_session_files : M unit :=
  for_each cleanup_paths cleanup_one.

(** Lines 25-32 and 69-76: read the existing [.env] content. *)
Definition read_env_content : M Dict.t :=
  ex <- env_file_exists ;;
  if ex : bool then
    lines <- read_env_lines ;;
    lift (parse_lines lines Dict.empty)
  else ret Dict.empty.

(** Lines 38-40 and 83-85: write the mapping back. *)
Definition write_env_content (env_content : Dict.t) : M unit :=
  open_env_w ;;;
  for_each (Dict.items env_content) (fun kv => env_write (format_item kv)).

(** The [try] block of [save_token]. *)
Definition save_token_body (token : string) : M unit :=
  env_content <- read_env_content ;;
  let env_content := Dict.set MONARCH_TOKEN_ENV_VAR token env_content in
  write_env_content env_content ;;;
  logger INFO "Token saved securely to .env file" ;;;
  _cleanup_old_session_files.

Definition save_token (token : string) : M unit :=
  try_except (save_token_body token)
    (fun e =>
       logger ERROR ("Failed to save token to .env file: " +:+ exn_str e) ;;;
       raise e).

(** The [try] block of [load_token], over the primitive [getenv] that
    reads the process environment. *)
Definition load_token_body (getenv : string -> M (option string))
  : M (option string) :=
  token <- getenv MONARCH_TOKEN_ENV_VAR ;;
  match token with
  | Some t =>
      if Str.truthy t then
        logger INFO "Token loaded from environment variable" ;;; ret (Some t)
      else
        logger INFO "No token found in environment variables" ;;; ret None
  | None =>
      logger INFO "No token found in environment variables" ;;; ret None
  end.

(** [load_token] over an environment read that may behave in any way. *)
Definition load_token_with (getenv : string -> M (option string))
  : M (option string) :=
  try_except (load_token_body getenv)
    (fun e =>
       logger ERROR ("Failed to load token from environment: " +:+ exn_str e) ;;;
       ret None).

Definition load_token : M (option string) := load_token_with os_getenv.

(** The [try] block of [delete_token]. *)
Definition delete_token_body : M unit :=
  env_content <- read_env_content ;;
  (if Dict.mem MONARCH_TOKEN_ENV_VAR env_content then
     env_content <- lift (Dict.del MONARCH_TOKEN_ENV_VAR env_content) ;;
     write_env_content env_content ;;;
     logger INFO "Token deleted from .env file"
   else
     logger INFO "No token found in .env file to delete") ;;;
  _cleanup_old_session_files.

Definition delete_token : M unit :=
  try_except delete_token_body
    (fun e =>
       logger ERROR ("Failed to delete token from .env file: " +:+ exn_str e)).

Section Client.
Context {Client : Type} `{MonarchMoneyAPI Client}.

Definition get_authenticated_client : M (option Client) :=
  token <- load_token ;;
  match token with
  | None => ret None
  | Some t =>
      if negb (Str.truthy t) then ret None
      else
        try_except
          (client <- lift (MonarchMoney t) ;;
           logger INFO "MonarchMoney client created with stored token" ;;;
           ret (Some client))
          (fun e =>
             logger ERROR ("Failed to create MonarchMoney client: " +:+ exn_str e) ;;;
             ret None)
  end.

Definition save_authenticated_session (mm : Client) : M unit :=
  match mm_token mm with
  | Some t =>
      if Str.truthy t then save_token t
      else logger WARNING "MonarchMoney instance has no token to save"
  | None => logger WARNING "MonarchMoney instance has no token to save"
  end.
End Client.

(** ** Notions used to state the properties *)

(** No line terminator inside [s]. *)
Definition no_linebreak (s : string) : Prop :=
  Str.contains Str.LF s = false ∧ Str.contains Str.CR s = false.

(** The pair one line of the file contributes to the mapping, if any:
    what [parse_line] adds to an empty dictionary. *)
Definition line_entry (line : string) : option (string * string) :=
  match parse_line line Dict.empty with
  | Return [kv] => Some kv
  | _ => None
  end.

(** The [key=value] entries of a file, line by line, in file order. *)
Definition file_entries (raw : string) : list (string * string) :=
  omap line_entry (Str.file_lines raw).

(** The values of the entries that hold key [k], in order. *)
Definition values_of (k : string) (es : list (string * string)) : list string :=
  (filter (fun e => e.1 = k) es).*2.

(** Assigning the entries to [d] in order. *)
Definition assign_all (d : Dict.t) (es : list (string * string)) : Dict.t :=
  foldl (fun d kv => Dict.set kv.1 kv.2 d) d es.

(** The dictionary built by assigning the entries in order. *)
Definition dict_of_entries (es : list (string * string)) : Dict.t :=
  assign_all Dict.empty es.

(** The mapping [save_token] and [delete_token] read from the file; a
    missing file is the empty mapping. *)
Definition env_mapping (f : option env_node) : Dict.t :=
  match f with
  | Some (EnvFile raw) => dict_of_entries (file_entries raw)
  | _ => Dict.empty
  end.

(** The text of the file, when there is a regular file. *)
Definition env_text (w : world) : option string :=
  match env_file w with
  | Some (EnvFile raw) => Some raw
  | _ => None
  end.

(** How often the file was opened for writing. *)
Definition rewrites (w : world) : nat :=
  length (filter (fun op => op = OpenWrite) (trace w)).

(** A key that can be written and read back: no ['='], no line break, and
    the line it starts is neither a comment nor indented. *)
Definition key_ok (k : string) : Prop :=
  Str.contains "=" k = false ∧ no_linebreak k ∧
  match k with
  | "" => True
  | String c _ => Str.isspace c = false ∧ c ≠ "#"%char
  end.

(** The entry a written pair is read back as. *)
Definition read_back (kv : string * string) : string * string :=
  (kv.1, Str.rstrip kv.2).

(** What the steps of the clean-up leave untouched. *)
Definition env_frame (w w' : world) : Prop :=
  environ w' = environ w ∧ env_file w' = env_file w ∧
  fault w' = fault w ∧ rewrites w' = rewrites w.

(** The entries of the file at [ENV_FILE_PATH]; none without a file. *)
Definition env_entries (f : option env_node) : list (string * string) :=
  match f with
  | Some (EnvFile raw) => file_entries raw
  | _ => []
  end.

(** The failures of the [.env] file I/O that [save_token] can meet in
    world [w], with the exception each one raises: a failing [open] or read
    of an existing file, a directory in place of the file, a failing
    [open] for writing, a failing [write]. *)
Definition readable (w : world) : Prop :=
  env_file w = None ∨
  ((∃ raw, env_file w = Some (EnvFile raw)) ∧
   fault w OpenRead = None ∧ fault w ReadText = None).

Inductive save_io_failure (w : world) : exn → Prop :=
| fail_open_read n e :
    env_file w = Some n → fault w OpenRead = Some e → save_io_failure w e
| fail_is_a_directory :
    env_file w = Some EnvDir → fault w OpenRead = None →
    save_io_failure w IsADirectoryError
| fail_read raw e :
    env_file w = Some (EnvFile raw) → fault w OpenRead = None →
    fault w ReadText = Some e → save_io_failure w e
| fail_open_write e :
    readable w → fault w OpenWrite = Some e → save_io_failure w e
| fail_write e :
    readable w → fault w OpenWrite = None → fault w WriteText = Some e →
    save_io_failure w e.

(** Every line of [raw] that does not hold the reserved key is a line of
    [raw']. *)
Definition other_lines_survive (raw raw' : string) : Prop :=
  ∀ line, line ∈ Str.file_lines raw →
          fst <$> line_entry line ≠ Some MONARCH_TOKEN_ENV_VAR →
          line ∈ Str.file_lines raw'.

(** Each key occurs at most once among the entries [new], and a key with
    several entries in [old] has one entry in [new], holding the value of
    the last of them. *)
Definition collapsed (old new : list (string * string)) : Prop :=
  NoDup new.*1 ∧
  ∀ k v, 2 ≤ length (values_of k old) → last (values_of k old) = Some v →
         values_of k new = [v].

(** The keys other than the reserved one keep their values from file [f]
    to file [f']. *)
Definition other_keys_kept (f f' : option env_node) : Prop :=
  ∀ k v, k ≠ MONARCH_TOKEN_ENV_VAR →
         Dict.get k (env_mapping f) = Some v →
         Dict.get k (env_mapping f') = Some v.

(** The number of entries of file [f] for the reserved key. *)
Definition token_entries (f : option env_node) : nat :=
  length (values_of MONARCH_TOKEN_ENV_VAR (env_entries f)).

(** Worlds for the examples: nothing fails, nothing logged yet. *)
Definition no_fault : io_op → option exn := fun _ => None.

Definition plain_world (env : gmap string string) (f : option env_node)
    (c : list (string * node)) : world :=
  World env f c no_fault [] [].

Definition faulty_world (f : option env_node) (flt : io_op → option exn)
  : world :=
  World ∅ f [] flt [] [].

(** Example inputs. *)
Definition one_key_file : option env_node :=
  Some (EnvFile ("A=1" +:+ Str.nl)).

(** A token that carries a second line. *)
Definition two_line_token : string := "t" +:+ Str.nl +:+ "A=2".

Definition commented_file : option env_node :=
  Some (EnvFile ("# local settings" +:+ Str.nl +:+
                 "MONARCH_TOKEN=old" +:+ Str.nl +:+
                 "A=1" +:+ Str.nl)).

Definition repeated_token_file : option env_node :=
  Some (EnvFile ("MONARCH_TOKEN=a" +:+ Str.nl +:+
                 "MONARCH_TOKEN=b" +:+ Str.nl)).

(** A client library for the examples: the constructor stores the token,
    and refuses the token ["expired"]. *)
Record example_client : Type := { client_token : string }.

Global Instance example_api : MonarchMoneyAPI example_client := {|
  MonarchMoney t :=
    if bool_decide (t = "expired") then Raise ValueError
    else Return {| client_token := t |};
  mm_token c := Some (client_token c)
|}.

(** A computation that returns normally from every state. *)
Definition never_raises {A} (m : M A) : Prop :=
  ∀ w, ∃ a, (m w).1 = Return a.

(** A computation whose every run relates the initial and final state
    by [R], whether it returns or raises. *)
Definition keeps {A} (R : relation world) (m : M A) : Prop :=
  ∀ w, R w (m w).2.

(** ** Notions used to state the further properties *)

(** A dictionary as the read loop builds it: distinct keys, each one fit
    to start a line, values without line break and without white space
    at their end. *)
Definition wf_dict (d : Dict.t) : Prop :=
  NoDup (Dict.keys d) ∧
  Forall (fun kv => key_ok kv.1 ∧ no_linebreak kv.2 ∧ Str.rstrip kv.2 = kv.2) d.

(** The process environment and the failures of the system are what they
    were. *)
Definition io_frame (w w' : world) : Prop :=
  environ w' = environ w ∧ fault w' = fault w.

(** The working directory is what it was. *)
Definition cwd_frame (w w' : world) : Prop := cwd w' = cwd w.

(** The first components of the legacy paths. *)
Definition legacy_names : list string := [".mm"; "monarch_session.json"].

(** The entries of the working directory outside the legacy paths are
    what they were, and so is what [.mm] holds beside the session file,
    as long as [.mm] is there. *)
Definition other_entries_kept (w w' : world) : Prop :=
  (∀ name, name ∉ legacy_names → assoc name (cwd w') = assoc name (cwd w)) ∧
  (∀ children', assoc ".mm" (cwd w') = Some (Dir children') →
     ∃ children, assoc ".mm" (cwd w) = Some (Dir children) ∧
       ∀ name, name ≠ "mm_session.pickle" →
               assoc name children' = assoc name children).

(** Whether an iteration of the clean-up loop on [p] unlinks it, from the
    entries of the directory and the failures of the system. *)
Definition unlinks (flt : io_op → option exn) (p : path)
    (entries : list (string * node)) : bool :=
  match resolve p entries with
  | Some (File _) =>
      match flt (Remove p) with None => true | Some _ => false end
  | Some (Dir []) =>
      match flt (Listdir p), flt (Rmdir p) with
      | None, None => true
      | _, _ => false
      end
  | _ => false
  end.

(** The entries an iteration of the clean-up loop on [p] leaves. *)
Definition cleanup_cwd (flt : io_op → option exn) (p : path)
    (entries : list (string * node)) : list (string * node) :=
  if unlinks flt p entries then unlink p entries else entries.

(** Further example inputs. *)
Definition legacy_tree : list (string * node) :=
  [(".mm", Dir [("mm_session.pickle", File "x"); ("cache", File "c")]);
   ("monarch_session.json", File "{}");
   ("README.md", File "r")].

Definition read_only : io_op → option exn :=
  fun op => match op with
            | OpenWrite => Some PermissionError
            | _ => None
            end.

(** * Properties *)

(** ** Strings *)

Section StrFacts.
Import Str.

Lemma sapp_nil_l s : "" +:+ s = s.
Proof. reflexivity. Qed.

Lemma sapp_cons c s t : String c s +:+ t = String c (s +:+ t).
Proof. reflexivity. Qed.

Lemma sapp_nil_r s : s +:+ "" = s.
Proof. induction s as [|c s IH]; [done|]. by rewrite sapp_cons, IH. Qed.

Lemma sapp_assoc s t u : (s +:+ t) +:+ u = s +:+ (t +:+ u).
Proof. induction s as [|c s IH]; [done|]. by rewrite !sapp_cons, IH. Qed.

Lemma contains_app c s t :
  contains c (s +:+ t) = contains c s || contains c t.
Proof.
  induction s as [|a s IH]; [done|].
  rewrite sapp_cons. simpl. rewrite IH. by rewrite orb_assoc.
Qed.

Lemma contains_lstrip c s : contains c (lstrip s) = true → contains c s = true.
Proof.
  induction s as [|a s IH]; [done|]. simpl.
  destruct (isspace a); [|done].
  intros ?%IH. apply orb_true_iff. by right.
Qed.

Lemma contains_rstrip c s : contains c (rstrip s) = true → contains c s = true.
Proof.
  induction s as [|a s IH]; [done|]. simpl.
  destruct (rstrip s) as [|b r] eqn:E.
  - destruct (isspace a); [done|]. simpl. rewrite orb_false_r.
    intros ->. done.
  - simpl in *. intros [->|H]%orb_true_iff; [done|].
    rewrite IH; [apply orb_true_r|done].
Qed.

Lemma contains_strip c s : contains c s = false → contains c (strip s) = false.
Proof.
  intros H. destruct (contains c (strip s)) eqn:E; [|done].
  apply contains_rstrip, contains_lstrip in E. congruence.
Qed.

(** [rstrip] stops at the last character that is not white space. *)
Lemma rstrip_app_cons s c t :
  isspace c = false → rstrip (s +:+ String c t) = s +:+ String c (rstrip t).
Proof.
  intros Hc. induction s as [|a s IH].
  - rewrite !sapp_nil_l. simpl. rewrite Hc. by destruct (rstrip t).
  - rewrite !sapp_cons. simpl. rewrite IH.
    by destruct s.
Qed.

Lemma rstrip_app_nl s : rstrip (s +:+ nl) = rstrip s.
Proof.
  induction s as [|a s IH]; [done|].
  rewrite sapp_cons. simpl. by rewrite IH.
Qed.

Lemma rstrip_idemp s : rstrip (rstrip s) = rstrip s.
Proof.
  induction s as [|a s IH]; [done|]. simpl.
  destruct (rstrip s) as [|b r] eqn:E.
  - destruct (isspace a) eqn:Ea; [done|]. simpl. by rewrite Ea.
  - simpl. simpl in IH. rewrite IH. done.
Qed.

Lemma lstrip_app_nl s : rstrip (lstrip (s +:+ nl)) = rstrip (lstrip s).
Proof.
  induction s as [|a s IH]; [done|].
  rewrite sapp_cons. simpl. destruct (isspace a); [done|].
  rewrite <-sapp_cons. apply rstrip_app_nl.
Qed.

Lemma strip_app_nl s : strip (s +:+ nl) = strip s.
Proof. apply lstrip_app_nl. Qed.

(** The first character of a stripped string is not white space. *)
Lemma rstrip_head a s b r :
  rstrip (String a s) = String b r → a = b.
Proof.
  simpl. destruct (rstrip s); [destruct (isspace a)|]; congruence.
Qed.

Lemma lstrip_head s b r : lstrip s = String b r → isspace b = false.
Proof.
  induction s as [|a s IH]; [done|]. simpl.
  destruct (isspace a) eqn:E; [done|]. congruence.
Qed.

Lemma strip_head s b r : strip s = String b r → isspace b = false.
Proof.
  unfold strip. destruct (lstrip s) as [|a t] eqn:E; [done|].
  intros <-%rstrip_head. by eapply lstrip_head.
Qed.

Lemma rstrip_strip s : rstrip (strip s) = strip s.
Proof. apply rstrip_idemp. Qed.

(** [split1] cuts at the first separator. *)
Lemma split1_contains c s :
  contains c s = true →
  ∃ k v, split1 c s = [k; v] ∧ s = k +:+ String c v ∧ contains c k = false.
Proof.
  induction s as [|a s IH]; [done|]. simpl.
  case_bool_decide as Ha.
  - intros _. exists "", s. by subst.
  - simpl. intros (k & v & -> & -> & Hk)%IH.
    exists (String a k), v. split_and!; [done|done|].
    simpl. rewrite Hk. by rewrite bool_decide_eq_false_2.
Qed.

Lemma split1_app c k v :
  contains c k = false → split1 c (k +:+ String c v) = [k; v].
Proof.
  induction k as [|a k IH]; simpl.
  - intros _. rewrite ?sapp_nil_l. simpl. by rewrite bool_decide_eq_true_2.
  - intros [Ha Hk]%orb_false_iff. rewrite ?sapp_cons. simpl.
    rewrite Ha. by rewrite IH.
Qed.

Lemma universal_newlines_id s :
  contains CR s = false → universal_newlines s = s.
Proof.
  induction s as [|a s IH]; [done|]. simpl.
  intros [Ha Hs]%orb_false_iff. rewrite Ha. by rewrite IH.
Qed.

Lemma universal_newlines_no_CR s : contains CR (universal_newlines s) = false.
Proof.
  cut (contains CR (universal_newlines s) = false ∧
       ∀ a, contains CR (universal_newlines (String a s)) = false);
    [by intros [? _]|].
  induction s as [|b s [IH1 IH2]].
  - split; [done|]. intros a. simpl. case_bool_decide as Ha; [done|].
    simpl. by rewrite bool_decide_eq_false_2.
  - split; [apply IH2|]. intros a.
    change (universal_newlines (String a (String b s))) with
      (if bool_decide (a = CR) then
         if bool_decide (b = LF) then String LF (universal_newlines s)
         else String LF (universal_newlines (String b s))
       else String a (universal_newlines (String b s))).
    repeat case_bool_decide; cbn [contains]; rewrite ?IH1, ?IH2;
      rewrite ?orb_false_r; try reflexivity.
    by rewrite bool_decide_eq_false_2.
Qed.

Lemma iter_lines_app_nl l rest :
  contains LF l = false → iter_lines (l +:+ nl +:+ rest) = (l +:+ nl) :: iter_lines rest.
Proof.
  induction l as [|a l IH]; simpl.
  - intros _. rewrite ?sapp_nil_l. unfold nl. rewrite ?sapp_cons, ?sapp_nil_l.
    simpl. done.
  - intros [Ha Hl]%orb_false_iff. rewrite ?sapp_cons. simpl.
    rewrite Ha. by rewrite IH.
Qed.

(** A line of the iteration has its only ["\n"] at the end. *)
Lemma iter_lines_shape s l :
  l ∈ iter_lines s →
  ∃ body, contains LF body = false ∧ (l = body ∨ l = body +:+ nl) ∧
          (∀ c, contains c body = true → contains c s = true).
Proof.
  revert l. induction s as [|a s IH]; intros l; simpl; [by intros ?%elem_of_nil|].
  case_bool_decide as Ha.
  - intros [->|Hl]%elem_of_cons.
    + exists "". split_and!; [done|by right|done].
    + destruct (IH _ Hl) as (body & ? & ? & Hc). exists body.
      split_and!; [done..|]. intros c ?%Hc. apply orb_true_iff. by right.
  - destruct (iter_lines s) as [|l0 ls] eqn:E.
    + intros ->%list_elem_of_singleton. exists (String a "").
      split_and!; [simpl; by rewrite bool_decide_eq_false_2|by left|].
      intros c. simpl. rewrite orb_false_r. intros ->. done.
    + intros [->|Hl]%elem_of_cons.
      * destruct (IH l0) as (body & Hb & Hl0 & Hc); [by left|].
        exists (String a body). split_and!.
        -- simpl. rewrite Hb. by rewrite bool_decide_eq_false_2.
        -- destruct Hl0 as [->| ->]; [by left|by right].
        -- intros c. simpl. intros [->|?%Hc]%orb_true_iff; [done|].
           apply orb_true_iff. by right.
      * destruct (IH l) as (body & Hb & Hl0 & Hc); [by right|].
        exists body. split_and!; [done..|].
        intros c ?%Hc. apply orb_true_iff. by right.
Qed.

End StrFacts.

(** ** The dictionary *)

Section DictFacts.
Implicit Types (d : Dict.t) (k v : string).

Lemma mem_keys k d : Dict.mem k d = true ↔ k ∈ Dict.keys d.
Proof.
  induction d as [|[k' v'] d IH]; simpl.
  - split; [done|by intros ?%elem_of_nil].
  - rewrite orb_true_iff, bool_decide_eq_true, IH, elem_of_cons.
    split; (intros [?|?]; [by left|by right]).
Qed.

Lemma mem_get k d : Dict.mem k d = true ↔ is_Some (Dict.get k d).
Proof.
  induction d as [|[k' v'] d IH]; simpl.
  - split; [done|by intros [??]].
  - case_bool_decide; simpl; [|done]. split; eauto.
Qed.

Lemma get_None_keys k d : Dict.get k d = None ↔ k ∉ Dict.keys d.
Proof.
  rewrite <-mem_keys, mem_get, eq_None_not_Some. done.
Qed.

Lemma set_fresh k v d : k ∉ Dict.keys d → Dict.set k v d = d ++ [(k, v)].
Proof.
  induction d as [|[k' v'] d IH]; simpl; [done|].
  intros [? ?]%not_elem_of_cons.
  rewrite bool_decide_eq_false_2 by done. by rewrite IH.
Qed.

Lemma set_keys k v d :
  Dict.keys (Dict.set k v d) =
  if Dict.mem k d then Dict.keys d else Dict.keys d ++ [k].
Proof.
  induction d as [|[k' v'] d IH]; simpl; [done|].
  case_bool_decide; simpl; [done|]. unfold Dict.keys in *.
  rewrite IH. by destruct (Dict.mem k d).
Qed.

Lemma set_NoDup k v d : NoDup (Dict.keys d) → NoDup (Dict.keys (Dict.set k v d)).
Proof.
  intros Hd. rewrite set_keys. destruct (Dict.mem k d) eqn:E; [done|].
  apply NoDup_app. split_and!; [done| |apply NoDup_singleton].
  intros x Hx ->%list_elem_of_singleton.
  apply mem_keys in Hx. congruence.
Qed.

Lemma get_set_eq k v d : Dict.get k (Dict.set k v d) = Some v.
Proof.
  induction d as [|[k' v'] d IH]; simpl.
  - by rewrite bool_decide_eq_true_2.
  - case_bool_decide as E; simpl; rewrite ?bool_decide_eq_true_2 by done; [done|].
    by rewrite bool_decide_eq_false_2.
Qed.

Lemma get_set_ne k k' v d : k ≠ k' → Dict.get k' (Dict.set k v d) = Dict.get k' d.
Proof.
  intros Hne. induction d as [|[k0 v0] d IH]; simpl.
  - by rewrite bool_decide_eq_false_2.
  - case_bool_decide as E; simpl.
    + subst. by rewrite !bool_decide_eq_false_2.
    + by rewrite IH.
Qed.

Lemma set_Forall (P : string * string → Prop) k v d :
  P (k, v) → Forall P d → Forall P (Dict.set k v d).
Proof.
  intros Hkv. induction 1 as [|[k' v'] d ?? IH]; simpl.
  - by constructor.
  - case_bool_decide; subst; constructor; auto.
Qed.

Lemma remove_keys k d : Dict.keys (Dict.remove k d) ⊆ Dict.keys d.
Proof.
  induction d as [|[k' v'] d IH]; simpl; [done|].
  case_bool_decide; simpl.
  - intros x ?. by right.
  - intros x [->|?]%elem_of_cons; [left|right; by apply IH].
Qed.

Lemma remove_NoDup k d : NoDup (Dict.keys d) → NoDup (Dict.keys (Dict.remove k d)).
Proof.
  induction d as [|[k' v'] d IH]; simpl; [done|].
  intros [? ?]%NoDup_cons. case_bool_decide; simpl; [done|].
  apply NoDup_cons. split; [|auto]. intros ?%remove_keys. done.
Qed.

Lemma remove_not_in k d : NoDup (Dict.keys d) → k ∉ Dict.keys (Dict.remove k d).
Proof.
  induction d as [|[k' v'] d IH]; simpl; [by intros _ ?%elem_of_nil|].
  intros [? ?]%NoDup_cons. case_bool_decide; simpl; [by subst|].
  apply not_elem_of_cons. split; [done|auto].
Qed.

Lemma get_remove_ne k k' d : k ≠ k' → Dict.get k' (Dict.remove k d) = Dict.get k' d.
Proof.
  intros Hne. induction d as [|[k0 v0] d IH]; simpl; [done|].
  case_bool_decide as E; simpl.
  - subst. by rewrite bool_decide_eq_false_2.
  - by rewrite IH.
Qed.

Lemma remove_Forall (P : string * string → Prop) k d :
  Forall P d → Forall P (Dict.remove k d).
Proof.
  induction 1 as [|[k' v'] d ?? IH]; simpl; [done|].
  case_bool_decide; [done|]. by constructor.
Qed.

Lemma remove_set_fresh k v d :
  k ∉ Dict.keys d → Dict.remove k (Dict.set k v d) = d.
Proof.
  induction d as [|[k' v'] d IH]; simpl.
  - intros _. by rewrite bool_decide_eq_true_2.
  - intros [? ?]%not_elem_of_cons.
    rewrite bool_decide_eq_false_2 by done. simpl.
    rewrite bool_decide_eq_false_2 by done. by rewrite IH.
Qed.

Lemma assign_all_NoDup d es :
  NoDup (Dict.keys d) → NoDup (Dict.keys (assign_all d es)).
Proof.
  revert d. induction es as [|[k v] es IH]; intros d Hd; simpl; [done|].
  by apply IH, set_NoDup.
Qed.

Lemma assign_all_Forall (P : string * string → Prop) d es :
  Forall P d → Forall P es → Forall P (assign_all d es).
Proof.
  intros Hd Hes. revert d Hd.
  induction Hes as [|[k v] es ?? IH]; intros d Hd; simpl; [done|].
  by apply IH, set_Forall.
Qed.

Lemma assign_all_fresh d es :
  NoDup (Dict.keys d ++ es.*1) → assign_all d es = d ++ es.
Proof.
  revert d. induction es as [|[k v] es IH]; intros d Hd; simpl.
  - by rewrite app_nil_r.
  - simpl in Hd. rewrite set_fresh.
    + rewrite IH; [by rewrite <-app_assoc|].
      unfold Dict.keys. rewrite fmap_app. simpl.
      by rewrite <-app_assoc.
    + apply NoDup_app in Hd as (_ & Hd & _). intros Hk.
      apply (Hd k Hk). by left.
Qed.

Lemma get_assign_all k d es :
  Dict.get k (assign_all d es) =
  match last (values_of k es) with
  | Some v => Some v
  | None => Dict.get k d
  end.
Proof.
  revert d. induction es as [|[k' v'] es IH]; intros d; simpl; [done|].
  rewrite IH. unfold values_of. rewrite filter_cons. simpl.
  case_decide as E; simpl.
  - subst. rewrite last_cons. rewrite get_set_eq.
    by destruct (last _).
  - rewrite get_set_ne by done. done.
Qed.

Lemma dict_of_entries_NoDup es : NoDup (Dict.keys (dict_of_entries es)).
Proof. apply assign_all_NoDup. constructor. Qed.

Lemma dict_of_entries_fresh es : NoDup es.*1 → dict_of_entries es = es.
Proof. intros H. by apply (assign_all_fresh []). Qed.

Lemma get_dict_of_entries k es :
  Dict.get k (dict_of_entries es) = last (values_of k es).
Proof.
  unfold dict_of_entries. rewrite get_assign_all. by destruct (last _).
Qed.

Lemma values_of_NoDup k es :
  NoDup es.*1 → values_of k es = option_list (Dict.get k es).
Proof.
  unfold values_of. induction es as [|[k' v'] es IH]; simpl; [done|].
  intros [Hk Hes]%NoDup_cons. rewrite filter_cons. simpl.
  case_decide as E; simpl.
  - subst. rewrite bool_decide_eq_true_2 by done. simpl. f_equal.
    etrans; [by apply IH|].
    assert (Dict.get k es = None) as ->; [|done].
    by apply get_None_keys.
  - rewrite bool_decide_eq_false_2 by done. auto.
Qed.

End DictFacts.

(** ** Reading and writing the [.env] format *)

Section FormatFacts.
Import Str.
Implicit Types (d : Dict.t) (k v line : string).

(** The unpacking [key, value = line.split('=', 1)] never fails under the
    guard: [parse_line] always returns. *)
Lemma parse_line_entry line d :
  parse_line line d =
  Return (match line_entry line with
          | Some kv => Dict.set kv.1 kv.2 d
          | None => d
          end).
Proof.
  unfold line_entry, parse_line.
  destruct (truthy (strip line) && negb (startswith "#" (strip line))
            && contains "=" (strip line)) eqn:G; [|done].
  apply andb_true_iff in G as [_ Hc].
  by destruct (split1_contains _ _ Hc) as (k & v & -> & _ & _).
Qed.

Lemma parse_lines_entries lines d :
  parse_lines lines d = Return (assign_all d (omap line_entry lines)).
Proof.
  revert d. induction lines as [|line lines IH]; intros d; simpl; [done|].
  rewrite parse_line_entry, IH. by destruct (line_entry line).
Qed.

Lemma parse_env_entries raw :
  parse_env raw = Return (dict_of_entries (file_entries raw)).
Proof. apply parse_lines_entries. Qed.

Lemma line_entry_inv line k v :
  line_entry line = Some (k, v) →
  strip line = k +:+ String "=" v ∧ contains "=" k = false ∧
  startswith "#" (strip line) = false.
Proof.
  unfold line_entry, parse_line.
  destruct (truthy (strip line) && negb (startswith "#" (strip line))
            && contains "=" (strip line)) eqn:G; [|done].
  apply andb_true_iff in G as [[_ Hh%negb_true_iff]%andb_true_iff Hc].
  destruct (split1_contains _ _ Hc) as (k' & v' & -> & HL & Hk).
  simpl. intros [= <- <-]. done.
Qed.

Lemma line_entry_ok line body k v :
  contains CR line = false → contains LF body = false →
  line = body ∨ line = body +:+ nl →
  line_entry line = Some (k, v) →
  key_ok k ∧ no_linebreak v ∧ rstrip v = v.
Proof.
  intros Hcr Hlf Hshape (HL & Hk & Hh)%line_entry_inv.
  assert (strip line = strip body) as Hsb.
  { destruct Hshape as [->| ->]; [done|apply strip_app_nl]. }
  assert (contains CR body = false) as Hcrb.
  { destruct Hshape as [->| ->]; [done|].
    rewrite contains_app in Hcr. by apply orb_false_iff in Hcr as [? _]. }
  assert (contains LF (strip line) = false) as H1
    by (rewrite Hsb; by apply contains_strip).
  assert (contains CR (strip line) = false) as H2
    by (rewrite Hsb; by apply contains_strip).
  rewrite HL, contains_app in H1, H2. simpl in H1, H2.
  apply orb_false_iff in H1 as [H1k H1v], H2 as [H2k H2v].
  unfold key_ok, no_linebreak. split_and!; try done.
  - destruct k as [|c k]; [done|]. rewrite HL in Hh. simpl in Hh.
    split; [|by apply bool_decide_eq_false in Hh].
    by eapply strip_head.
  - pose proof (rstrip_strip line) as Hr. rewrite HL in Hr.
    rewrite rstrip_app_cons in Hr by done.
    by apply (inj (String.app k)) in Hr as [= ?].
Qed.

(** Every entry read from a file can be written and read back. *)
Lemma file_entries_ok raw :
  Forall (fun kv => key_ok kv.1 ∧ no_linebreak kv.2 ∧ rstrip kv.2 = kv.2)
         (file_entries raw).
Proof.
  apply Forall_forall. intros [k v] (line & Hl & He)%list_elem_of_omap.
  destruct (iter_lines_shape _ _ Hl) as (body & Hb & Hs & Hc).
  eapply line_entry_ok; [|done..].
  destruct (contains CR line) eqn:E; [|done].
  assert (contains CR body = true) as Hcb.
  { destruct Hs as [->| ->]; [done|].
    rewrite contains_app in E. by apply orb_true_iff in E as [?|?]. }
  apply Hc in Hcb. by rewrite universal_newlines_no_CR in Hcb.
Qed.

Lemma format_item_eq k v : format_item (k, v) = (k +:+ String "=" v) +:+ nl.
Proof. unfold format_item. simpl. by rewrite sapp_assoc. Qed.

Lemma line_entry_format k v :
  key_ok k → no_linebreak v →
  line_entry (format_item (k, v)) = Some (k, rstrip v).
Proof.
  intros (Hk & _ & Hh) _. unfold line_entry, parse_line.
  rewrite format_item_eq, strip_app_nl.
  assert (strip (k +:+ String "=" v) = k +:+ String "=" (rstrip v)) as ->.
  { unfold strip. rewrite <-rstrip_app_cons by done. f_equal.
    destruct k as [|c k]; [done|]. destruct Hh as [Hc _].
    rewrite sapp_cons. simpl. by rewrite Hc. }
  assert (truthy (k +:+ String "=" (rstrip v)) = true) as -> by by destruct k.
  assert (startswith "#" (k +:+ String "=" (rstrip v)) = false) as ->.
  { destruct k as [|c k]; [done|]. destruct Hh as [_ Hc].
    rewrite sapp_cons. simpl. by apply bool_decide_eq_false. }
  rewrite contains_app. simpl. rewrite orb_true_r. simpl.
  by rewrite split1_app.
Qed.

Lemma serialize_cons kv d : serialize (kv :: d) = format_item kv +:+ serialize d.
Proof. reflexivity. Qed.

Lemma contains_serialize c d :
  c ≠ LF → c ≠ "="%char →
  Forall (fun kv => contains c kv.1 = false ∧ contains c kv.2 = false) d →
  contains c (serialize d) = false.
Proof.
  intros H1 H2. induction 1 as [|[k v] d [Hk Hv] _ IH]; [done|].
  rewrite serialize_cons, format_item_eq. simpl in Hk, Hv.
  rewrite !contains_app, IH. unfold nl. cbn [contains]. rewrite Hk, Hv.
  by rewrite !bool_decide_eq_false_2.
Qed.

Lemma iter_lines_serialize d :
  Forall (fun kv => contains LF kv.1 = false ∧ contains LF kv.2 = false) d →
  iter_lines (serialize d) = format_item <$> d.
Proof.
  induction 1 as [|[k v] d [Hk Hv] _ IH]; [done|].
  rewrite serialize_cons, fmap_cons, format_item_eq.
  rewrite sapp_assoc, iter_lines_app_nl; [by rewrite IH|].
  simpl in Hk, Hv. rewrite contains_app. cbn [contains].
  by rewrite Hk, Hv.
Qed.

Lemma file_lines_serialize d :
  Forall (fun kv => no_linebreak kv.1 ∧ no_linebreak kv.2) d →
  file_lines (serialize d) = format_item <$> d.
Proof.
  intros Hd. unfold file_lines. rewrite universal_newlines_id.
  - apply iter_lines_serialize. eapply Forall_impl; [done|].
    by intros [k v] [[? _] [? _]].
  - apply contains_serialize; [done..|]. eapply Forall_impl; [done|].
    by intros [k v] [[_ ?] [_ ?]].
Qed.

(** Reading back what the write loop wrote. *)
Lemma file_entries_serialize d :
  Forall (fun kv => key_ok kv.1 ∧ no_linebreak kv.2) d →
  file_entries (serialize d) = read_back <$> d.
Proof.
  intros Hd. unfold file_entries. rewrite file_lines_serialize.
  - induction Hd as [|[k v] d [Hk Hv] _ IH]; [done|].
    simpl. rewrite line_entry_format by done. f_equal. apply IH.
  - eapply Forall_impl; [done|]. by intros [k v] [(_ & ? & _) ?].
Qed.

Lemma read_back_keys d : (read_back <$> d).*1 = d.*1.
Proof. rewrite <-list_fmap_compose. by apply list_fmap_ext. Qed.

Lemma read_back_id d :
  Forall (fun kv => rstrip kv.2 = kv.2) d → read_back <$> d = d.
Proof.
  induction 1 as [|[k v] d Hv _ IH]; [done|].
  rewrite fmap_cons. f_equal; [|done].
  unfold read_back. simpl in *. by rewrite Hv.
Qed.

Lemma token_key_ok : key_ok MONARCH_TOKEN_ENV_VAR.
Proof. by repeat split. Qed.

(** The mapping read from a file is well formed. *)
Lemma env_mapping_ok f :
  NoDup (Dict.keys (env_mapping f)) ∧
  Forall (fun kv => key_ok kv.1 ∧ no_linebreak kv.2 ∧ rstrip kv.2 = kv.2)
         (env_mapping f).
Proof.
  destruct f as [[raw|]|]; simpl; try (split; constructor).
  split; [apply dict_of_entries_NoDup|].
  apply assign_all_Forall; [constructor|apply file_entries_ok].
Qed.

End FormatFacts.

(** ** The monad *)

Section MonadFacts.
Context {A B : Type}.
Implicit Types (m : M A) (k : A → M B) (w : world).

Lemma bind_Return m k w a w1 : m w = (Return a, w1) → bind m k w = k a w1.
Proof. unfold bind. by intros ->. Qed.

Lemma bind_Raise m k w e w1 : m w = (Raise e, w1) → bind m k w = (Raise e, w1).
Proof. unfold bind. by intros ->. Qed.

Lemma bind_inv_Return m k w b w' :
  bind m k w = (Return b, w') →
  ∃ a w1, m w = (Return a, w1) ∧ k a w1 = (Return b, w').
Proof. unfold bind. destruct (m w) as [[a|e] w1]; [eauto|done]. Qed.

End MonadFacts.

Section Keeps.
Context (R : relation world) `{!PreOrder R}.

Lemma keeps_pure {A} (m : M A) : (∀ w, (m w).2 = w) → keeps R m.
Proof. intros Hm w. by rewrite Hm. Qed.

Lemma keeps_ret {A} (a : A) : keeps R (ret a).
Proof. intros w. simpl. reflexivity. Qed.



Lemma keeps_bind {A B} (m : M A) (k : A → M B) :
  keeps R m → (∀ a, keeps R (k a)) → keeps R (bind m k).
Proof.
  intros Hm Hk w. unfold bind. specialize (Hm w).
  destruct (m w) as [[a|e] w1]; simpl in *; [|done].
  etrans; [done|apply Hk].
Qed.

Lemma keeps_try {A} (body : M A) handler :
  keeps R body → (∀ e, keeps R (handler e)) → keeps R (try_except body handler).
Proof.
  intros Hm Hk w. unfold try_except. specialize (Hm w).
  destruct (body w) as [[a|e] w1]; simpl in *; [done|].
  etrans; [done|apply Hk].
Qed.

Lemma keeps_for_each {A} (xs : list A) body :
  (∀ x, keeps R (body x)) → keeps R (for_each xs body).
Proof.
  intros Hb. induction xs as [|x xs IH]; simpl; [apply keeps_ret|].
  by apply keeps_bind.
Qed.
End Keeps.

Lemma never_raises_try {A} (body : M A) handler :
  (∀ e, never_raises (handler e)) → never_raises (try_except body handler).
Proof.
  intros Hh w. unfold try_except.
  destruct (body w) as [[a|e] w1]; [by exists a|apply Hh].
Qed.

Lemma never_raises_bind {A B} (m : M A) (k : A → M B) :
  never_raises m → (∀ a, never_raises (k a)) → never_raises (bind m k).
Proof.
  intros Hm Hk w. unfold bind. destruct (Hm w) as [a Ha].
  destruct (m w) as [[a'|e] w1]; simpl in *; [apply Hk|done].
Qed.

Lemma never_raises_for_each {A} (xs : list A) body :
  (∀ x, never_raises (body x)) → never_raises (for_each xs body).
Proof.
  intros Hb. induction xs as [|x xs IH]; simpl; [by exists tt|].
  by apply never_raises_bind.
Qed.

Lemma never_raises_logger lvl msg : never_raises (logger lvl msg).
Proof. intros w. by exists tt. Qed.

Lemma never_raises_ret {A} (a : A) : never_raises (ret a).
Proof. intros w. by exists a. Qed.

(** ** Frames *)

Global Instance env_frame_preorder : PreOrder env_frame.
Proof.
  split.
  - by intros w.
  - intros w1 w2 w3 (?&?&?&?) (?&?&?&?). unfold env_frame. split_and!; congruence.
Qed.

Lemma rewrites_add_trace op w :
  rewrites (add_trace op w) =
  if decide (op = OpenWrite) then S (rewrites w) else rewrites w.
Proof.
  unfold rewrites. simpl. rewrite filter_app, length_app.
  rewrite filter_cons, filter_nil. case_decide; simpl; lia.
Qed.

Lemma keeps_env_frame_syscall op : op ≠ OpenWrite → keeps env_frame (syscall op).
Proof.
  intros Hop w. unfold syscall.
  assert (env_frame w (add_trace op w)) as Hf.
  { split_and!; try done. rewrite rewrites_add_trace. by case_decide. }
  by destruct (fault w op).
Qed.

Lemma keeps_env_frame_logger lvl msg : keeps env_frame (logger lvl msg).
Proof. intros w. by split_and!. Qed.

Lemma keeps_env_frame_cleanup_attempt p : keeps env_frame (cleanup_attempt p).
Proof.
  assert (∀ {A} (f : world → outcome A * world),
            (∀ w, (f w).2 = w ∨ (f w).2 = set_cwd (unlink p (cwd w)) w) →
            keeps env_frame f) as Hcwd.
  { intros A f Hf w. by destruct (Hf w) as [-> | ->]. }
  unfold cleanup_attempt.
  apply (keeps_bind env_frame); [by apply (keeps_pure env_frame)|].
  intros [|]; [|by apply (keeps_ret env_frame)].
  apply (keeps_bind env_frame); [by apply (keeps_pure env_frame)|]. intros [|].
  { apply (keeps_bind env_frame); [|intros _; apply keeps_env_frame_logger].
    apply (keeps_bind env_frame); [by apply keeps_env_frame_syscall|].
    intros _. apply Hcwd. intros w.
    destruct (resolve p (cwd w)) as [[| |]|]; simpl; auto. }
  apply (keeps_bind env_frame); [by apply (keeps_pure env_frame)|].
  intros [|]; [|by apply (keeps_ret env_frame)].
  apply (keeps_bind env_frame).
  { apply (keeps_bind env_frame); [by apply keeps_env_frame_syscall|].
    intros _. apply Hcwd. intros w.
    destruct (resolve p (cwd w)) as [[| |]|]; simpl; auto. }
  intros [|??]; [|by apply (keeps_ret env_frame)].
  apply (keeps_bind env_frame); [|intros _; apply keeps_env_frame_logger].
  apply (keeps_bind env_frame); [by apply keeps_env_frame_syscall|].
  intros _. apply Hcwd. intros w.
  destruct (resolve p (cwd w)) as [[|[|??]|]|]; simpl; auto.
Qed.

Lemma keeps_env_frame_cleanup : keeps env_frame _cleanup_old_session_files.
Proof.
  apply (keeps_for_each env_frame). intros p.
  apply (keeps_try env_frame); [apply keeps_env_frame_cleanup_attempt|].
  intros e. apply keeps_env_frame_logger.
Qed.

Lemma cleanup_one_never_raises p : never_raises (cleanup_one p).
Proof. apply never_raises_try. intros e. apply never_raises_logger. Qed.

Lemma cleanup_never_raises : never_raises _cleanup_old_session_files.
Proof. apply never_raises_for_each, cleanup_one_never_raises. Qed.

Lemma cleanup_run w :
  ∃ w', _cleanup_old_session_files w = (Return tt, w') ∧ env_frame w w'.
Proof.
  destruct (cleanup_never_raises w) as [[] Hr].
  pose proof (keeps_env_frame_cleanup w) as Hf.
  destruct (_cleanup_old_session_files w) as [r w']. simpl in *. subst.
  by exists w'.
Qed.

(** Evaluate a run whose tests on the world are known from hypotheses. *)
Ltac run_world :=
  repeat (simpl;
          match goal with
          | H : resolve _ _ = _ |- _ => rewrite H
          | H : fault _ _ = _ |- _ => rewrite H
          | H : env_file _ = _ |- _ => rewrite H
          end);
  simpl; try done.

(** ** The working directory *)

Lemma assoc_filter_ne name entries :
  assoc name (filter (fun e => e.1 ≠ name) entries) = None.
Proof.
  induction entries as [|[n c] entries IH]; [done|].
  rewrite filter_cons. simpl. case_decide as E; simpl; [|done].
  by rewrite bool_decide_eq_false_2.
Qed.

Lemma assoc_fmap (f : string * node → string * node) name entries :
  (∀ e, (f e).1 = e.1) →
  assoc name (f <$> entries) = (fun c => (f (name, c)).2) <$> assoc name entries.
Proof.
  intros Hf. induction entries as [|[n c] entries IH]; [done|].
  rewrite fmap_cons. specialize (Hf (n, c)).
  destruct (f (n, c)) as [n' c'] eqn:E. simpl in *. subst n'.
  case_bool_decide; [|done]. subst. simpl. by rewrite E.
Qed.

(** Once unlinked, a path denotes nothing. *)
Lemma resolve_unlink p entries : resolve p (unlink p entries) = None.
Proof.
  revert entries. induction p as [|name p IH]; intros entries; [done|].
  destruct p as [|name' p].
  - simpl. apply assoc_filter_ne.
  - change (resolve (name :: name' :: p) (unlink (name :: name' :: p) entries))
      with (match assoc name (unlink (name :: name' :: p) entries) with
            | Some (Dir children) => resolve (name' :: p) children
            | _ => None
            end).
    cbn [unlink]. rewrite assoc_fmap.
    + destruct (assoc name entries) as [[| |]|]; simpl;
        rewrite ?bool_decide_eq_true_2 by done; simpl; try done.
      apply IH.
    + intros [n c]. simpl. case_bool_decide; [|done]. by destruct c.
Qed.

(** What one iteration of the clean-up loop does, case by case. *)
Lemma cleanup_one_cases p w :
  cleanup_one p w =
  let warn e := (WARNING, "Could not clean up " +:+ path_str p +:+ ": " +:+ exn_str e) in
  match resolve p (cwd w) with
  | Some (File _) =>
      match fault w (Remove p) with
      | None =>
          (Return tt,
           add_log (INFO, "Cleaned up old insecure session file: " +:+ path_str p)
             (set_cwd (unlink p (cwd w)) (add_trace (Remove p) w)))
      | Some e => (Return tt, add_log (warn e) (add_trace (Remove p) w))
      end
  | Some (Dir children) =>
      match fault w (Listdir p) with
      | Some e => (Return tt, add_log (warn e) (add_trace (Listdir p) w))
      | None =>
          match children with
          | _ :: _ => (Return tt, add_trace (Listdir p) w)
          | [] =>
              match fault w (Rmdir p) with
              | None =>
                  (Return tt,
                   add_log (INFO, "Cleaned up empty session directory: " +:+ path_str p)
                     (set_cwd (unlink p (cwd w))
                        (add_trace (Rmdir p) (add_trace (Listdir p) w))))
              | Some e =>
                  (Return tt,
                   add_log (warn e) (add_trace (Rmdir p) (add_trace (Listdir p) w)))
              end
          end
      end
  | Some Special | None => (Return tt, w)
  end.
Proof.
  destruct (resolve p (cwd w)) as [[c|[|[n c] children]|]|] eqn:E;
    [destruct (fault w (Remove p)) eqn:F
    |destruct (fault w (Listdir p)) eqn:F; [|destruct (fault w (Rmdir p)) eqn:F']
    |destruct (fault w (Listdir p)) eqn:F
    | | ];
    unfold cleanup_one, try_except, cleanup_attempt, os_path_exists,
      os_path_isfile, os_path_isdir, os_remove, os_rmdir, os_listdir, syscall,
      logger, ret, bind;
    run_world.
Qed.

(** ** The [.env] file *)

Lemma read_env_content_cases w :
  read_env_content w =
  match env_file w with
  | None => (Return Dict.empty, w)
  | Some n =>
      match fault w OpenRead with
      | Some e => (Raise e, add_trace OpenRead w)
      | None =>
          match n with
          | EnvDir => (Raise IsADirectoryError, add_trace OpenRead w)
          | EnvFile raw =>
              match fault w ReadText with
              | Some e => (Raise e, add_trace ReadText (add_trace OpenRead w))
              | None =>
                  (Return (env_mapping (env_file w)),
                   add_trace ReadText (add_trace OpenRead w))
              end
          end
      end
  end.
Proof.
  destruct (env_file w) as [[raw|]|] eqn:E;
    [destruct (fault w OpenRead) eqn:F; [|destruct (fault w ReadText) eqn:F']
    |destruct (fault w OpenRead) eqn:F
    |];
    unfold read_env_content, env_file_exists, read_env_lines,
      syscall, lift, ret, raise, bind;
    run_world.
  by rewrite parse_lines_entries.
Qed.

(** The write loop appends the formatted items to the open file. *)
Lemma env_write_all d w old :
  env_file w = Some (EnvFile old) → fault w WriteText = None →
  ∃ w', for_each (Dict.items d) (fun kv => env_write (format_item kv)) w
        = (Return tt, w') ∧
        env_file w' = Some (EnvFile (old +:+ serialize d)) ∧
        environ w' = environ w ∧ fault w' = fault w ∧
        rewrites w' = rewrites w.
Proof.
  revert w old. induction d as [|kv d IH]; intros w old Hf Hw.
  - exists w. rewrite sapp_nil_r. by split_and!.
  - destruct (IH (set_env_file (Some (EnvFile (old +:+ format_item kv)))
                    (add_trace WriteText w)) (old +:+ format_item kv))
      as (w' & Hrun & Hfile & Henv & Hfault & Hrw); [done..|].
    exists w'. split_and!; try done.
    + unfold Dict.items in *. simpl. unfold bind at 1, env_write at 1.
      unfold bind, syscall. rewrite Hw. simpl. rewrite Hf. done.
    + by rewrite Hfile, serialize_cons, sapp_assoc.
    + rewrite Hrw. unfold rewrites. simpl.
      rewrite filter_app, filter_cons, filter_nil.
      rewrite decide_False by done. by rewrite app_nil_r.
Qed.

Lemma env_write_all_fault d w old e :
  env_file w = Some (EnvFile old) → fault w WriteText = Some e → d ≠ [] →
  for_each (Dict.items d) (fun kv => env_write (format_item kv)) w
  = (Raise e, add_trace WriteText w).
Proof.
  intros Hf Hw Hd. destruct d as [|kv d]; [done|].
  unfold Dict.items. simpl. unfold bind at 1, env_write at 1.
  unfold bind, syscall. by rewrite Hw.
Qed.

Lemma open_env_w_cases w :
  open_env_w w =
  match fault w OpenWrite with
  | Some e => (Raise e, add_trace OpenWrite w)
  | None =>
      match env_file w with
      | Some EnvDir => (Raise IsADirectoryError, add_trace OpenWrite w)
      | _ => (Return tt, set_env_file (Some (EnvFile "")) (add_trace OpenWrite w))
      end
  end.
Proof.
  destruct (fault w OpenWrite) eqn:F; destruct (env_file w) as [[|]|] eqn:E;
    unfold open_env_w, syscall, bind; run_world.
Qed.

Lemma rewrites_open w n :
  rewrites (set_env_file n (add_trace OpenWrite w)) = S (rewrites w).
Proof.
  change (rewrites (set_env_file n (add_trace OpenWrite w)))
    with (rewrites (add_trace OpenWrite w)).
  rewrite rewrites_add_trace. by rewrite decide_True.
Qed.

Lemma write_env_content_Return d w w' :
  write_env_content d w = (Return tt, w') →
  env_file w' = Some (EnvFile (serialize d)) ∧
  environ w' = environ w ∧ fault w' = fault w ∧
  rewrites w' = S (rewrites w).
Proof.
  intros ([] & w1 & Hopen & Hloop)%bind_inv_Return.
  rewrite open_env_w_cases in Hopen.
  assert (w1 = set_env_file (Some (EnvFile "")) (add_trace OpenWrite w)) as ->.
  { destruct (fault w OpenWrite); [done|].
    destruct (env_file w) as [[|]|]; by simplify_eq. }
  destruct d as [|kv d].
  { simpl in Hloop. injection Hloop as <-. split_and!; try done.
    apply rewrites_open. }
  destruct (fault w WriteText) as [e|] eqn:Hw.
  - erewrite env_write_all_fault in Hloop; done.
  - destruct (env_write_all (kv :: d)
                (set_env_file (Some (EnvFile "")) (add_trace OpenWrite w)) "")
      as (w2 & Hrun & Hfile & Henv & Hfault & Hrw); [done..|].
    rewrite Hloop in Hrun. injection Hrun as <-.
    split_and!; try done. rewrite Hrw. apply rewrites_open.
Qed.

Lemma write_env_content_ok d w :
  fault w OpenWrite = None → fault w WriteText = None →
  env_file w ≠ Some EnvDir →
  ∃ w', write_env_content d w = (Return tt, w').
Proof.
  intros Ho Hw Hn.
  destruct (env_write_all d (set_env_file (Some (EnvFile ""))
                               (add_trace OpenWrite w)) "")
    as (w' & Hrun & _); [done..|].
  exists w'. unfold write_env_content.
  erewrite bind_Return; [done|].
  rewrite open_env_w_cases, Ho. by destruct (env_file w) as [[|]|].
Qed.

Lemma env_frame_add_trace op w : op ≠ OpenWrite → env_frame w (add_trace op w).
Proof.
  intros Hop. split_and!; try done. rewrite rewrites_add_trace.
  by rewrite decide_False.
Qed.

Lemma rewrites_add_log r w : rewrites (add_log r w) = rewrites w.
Proof. reflexivity. Qed.

Lemma env_frame_add_log r w : env_frame w (add_log r w).
Proof. by split_and!. Qed.

Lemma keeps_env_frame_read : keeps env_frame read_env_content.
Proof.
  intros w. rewrite read_env_content_cases.
  assert (env_frame w (add_trace OpenRead w)) as H1
    by by apply env_frame_add_trace.
  assert (env_frame w (add_trace ReadText (add_trace OpenRead w))) as H2.
  { etrans; [done|]. by apply env_frame_add_trace. }
  destruct (env_file w) as [[raw|]|]; simpl; try reflexivity;
    destruct (fault w OpenRead); simpl; try done;
    by destruct (fault w ReadText).
Qed.

Lemma read_env_content_Return w d w1 :
  read_env_content w = (Return d, w1) →
  d = env_mapping (env_file w) ∧ env_frame w w1.
Proof.
  intros Hrun. pose proof (keeps_env_frame_read w) as Hf.
  rewrite Hrun in Hf. split; [|done].
  rewrite read_env_content_cases in Hrun.
  destruct (env_file w) as [[raw|]|]; simpl in *; [| |by simplify_eq];
    destruct (fault w OpenRead); try done.
  destruct (fault w ReadText); by simplify_eq.
Qed.

Lemma readable_not_dir w : readable w → env_file w ≠ Some EnvDir.
Proof. intros [->|[[raw ->] _]]; done. Qed.

Lemma read_env_content_ok w :
  readable w →
  ∃ w1, read_env_content w = (Return (env_mapping (env_file w)), w1) ∧
        env_frame w w1.
Proof.
  intros Hr. pose proof (keeps_env_frame_read w) as Hf.
  rewrite read_env_content_cases in *.
  destruct Hr as [Hn|([raw Hraw] & Ho & Hr)].
  - rewrite Hn in *. eauto.
  - rewrite Hraw, Ho, Hr in *. eauto.
Qed.

(** What a successful [save_token] leaves in the file. *)
Lemma save_token_body_Return token w w' :
  save_token_body token w = (Return tt, w') →
  env_file w' =
    Some (EnvFile (serialize (Dict.set MONARCH_TOKEN_ENV_VAR token
                                (env_mapping (env_file w))))) ∧
  environ w' = environ w ∧ fault w' = fault w ∧
  rewrites w' = S (rewrites w).
Proof.
  intros (d & w1 & Hread & Hk)%bind_inv_Return.
  apply read_env_content_Return in Hread as (-> & He1 & Hf1 & Hfa1 & Hr1).
  apply bind_inv_Return in Hk as ([] & w2 & Hwrite & Hk).
  apply write_env_content_Return in Hwrite as (Hf2 & He2 & Hfa2 & Hr2).
  apply bind_inv_Return in Hk as ([] & w3 & Hlog & Hk).
  injection Hlog as <-.
  destruct (cleanup_run (add_log (INFO, "Token saved securely to .env file") w2))
    as (w4 & Hrun & He4 & Hf4 & Hfa4 & Hr4).
  rewrite Hk in Hrun. injection Hrun as <-.
  rewrite Hf4, He4, Hfa4, Hr4. simpl. rewrite rewrites_add_log.
  split_and!; congruence.
Qed.

Lemma save_token_body_ok token w :
  readable w → fault w OpenWrite = None → fault w WriteText = None →
  ∃ w', save_token_body token w = (Return tt, w').
Proof.
  intros Hr Hw Hwt. pose proof (readable_not_dir _ Hr) as Hn.
  destruct (read_env_content_ok w) as (w1 & Hread & He1 & Hf1 & Hfa1 & Hr1);
    [done..|].
  destruct (write_env_content_ok
              (Dict.set MONARCH_TOKEN_ENV_VAR token (env_mapping (env_file w))) w1)
    as (w2 & Hwrite); [congruence..|].
  destruct (cleanup_run (add_log (INFO, "Token saved securely to .env file") w2))
    as (w4 & Hrun & _).
  exists w4. unfold save_token_body.
  erewrite bind_Return by done. erewrite bind_Return by done.
  by erewrite bind_Return.
Qed.

Lemma try_except_Return {A} (body : M A) handler w a w' :
  body w = (Return a, w') → try_except body handler w = (Return a, w').
Proof. unfold try_except. by intros ->. Qed.

Lemma try_except_Raise {A} (body : M A) handler w e w' :
  body w = (Raise e, w') → try_except body handler w = handler e w'.
Proof. unfold try_except. by intros ->. Qed.

(** What a successful [delete_token] leaves in the file. *)
Lemma delete_token_body_Return w w' :
  delete_token_body w = (Return tt, w') →
  environ w' = environ w ∧ fault w' = fault w ∧
  if Dict.mem MONARCH_TOKEN_ENV_VAR (env_mapping (env_file w)) then
    env_file w' =
      Some (EnvFile (serialize (Dict.remove MONARCH_TOKEN_ENV_VAR
                                  (env_mapping (env_file w))))) ∧
    rewrites w' = S (rewrites w)
  else env_file w' = env_file w ∧ rewrites w' = rewrites w.
Proof.
  intros (d & w1 & Hread & Hk)%bind_inv_Return.
  apply read_env_content_Return in Hread as (-> & He1 & Hf1 & Hfa1 & Hr1).
  apply bind_inv_Return in Hk as ([] & w2 & Hmid & Hk).
  destruct (cleanup_run w2) as (w4 & Hrun & He4 & Hf4 & Hfa4 & Hr4).
  rewrite Hk in Hrun. injection Hrun as <-.
  rewrite Hf4, He4, Hfa4, Hr4.
  unfold Dict.del in Hmid.
  destruct (Dict.mem MONARCH_TOKEN_ENV_VAR (env_mapping (env_file w))) eqn:Hm.
  - apply bind_inv_Return in Hmid as (d' & w1' & Hdel & Hmid).
    injection Hdel as <- <-.
    apply bind_inv_Return in Hmid as ([] & w3 & Hwrite & Hlog).
    injection Hlog as <-.
    apply write_env_content_Return in Hwrite as (Hf2 & He2 & Hfa2 & Hr2).
    simpl. rewrite rewrites_add_log. split_and!; congruence.
  - injection Hmid as <-. simpl. rewrite rewrites_add_log.
    split_and!; congruence.
Qed.

Lemma delete_token_body_ok w :
  readable w → fault w OpenWrite = None → fault w WriteText = None →
  ∃ w', delete_token_body w = (Return tt, w').
Proof.
  intros Hr Hw Hwt. pose proof (readable_not_dir _ Hr) as Hn.
  destruct (read_env_content_ok w) as (w1 & Hread & He1 & Hf1 & Hfa1 & Hr1);
    [done..|].
  unfold delete_token_body. erewrite bind_Return by done.
  unfold Dict.del.
  destruct (Dict.mem MONARCH_TOKEN_ENV_VAR (env_mapping (env_file w))).
  - destruct (write_env_content_ok
                (Dict.remove MONARCH_TOKEN_ENV_VAR (env_mapping (env_file w))) w1)
      as (w2 & Hwrite); [congruence..|].
    destruct (cleanup_run (add_log (INFO, "Token deleted from .env file") w2))
      as (w4 & Hrun & _).
    exists w4. erewrite bind_Return; [done|].
    erewrite bind_Return by done. by erewrite bind_Return.
  - destruct (cleanup_run
                (add_log (INFO, "No token found in .env file to delete") w1))
      as (w4 & Hrun & _).
    exists w4. by erewrite bind_Return.
Qed.

(** Without the reserved key in the file, [delete_token] never opens the
    file for writing, whatever else happens. *)
Lemma delete_token_absent_frame w :
  Dict.mem MONARCH_TOKEN_ENV_VAR (env_mapping (env_file w)) = false →
  env_frame w (delete_token w).2.
Proof.
  intros Hm. unfold delete_token, try_except, delete_token_body.
  pose proof (keeps_env_frame_read w) as Hf.
  unfold bind at 1.
  destruct (read_env_content w) as [[d|e] w1] eqn:Hread; simpl in Hf.
  - apply read_env_content_Return in Hread as (-> & _). rewrite Hm.
    unfold bind at 1. simpl.
    destruct (cleanup_run
                (add_log (INFO, "No token found in .env file to delete") w1))
      as (w4 & -> & Hf4).
    simpl. etrans; [done|]. etrans; [apply env_frame_add_log|done].
  - simpl. etrans; [done|apply env_frame_add_log].
Qed.

Lemma delete_token_never_raises : never_raises delete_token.
Proof. apply never_raises_try. intros e. apply never_raises_logger. Qed.

Lemma load_token_cases w :
  load_token w =
  match environ w !! MONARCH_TOKEN_ENV_VAR with
  | Some (String c t) =>
      (Return (Some (String c t)),
       add_log (INFO, "Token loaded from environment variable") w)
  | _ => (Return None, add_log (INFO, "No token found in environment variables") w)
  end.
Proof.
  unfold load_token, load_token_with, try_except, load_token_body, os_getenv,
    logger, ret, bind.
  by destruct (environ w !! MONARCH_TOKEN_ENV_VAR) as [[|c t]|].
Qed.

(** ** Reading back a rewritten file *)

Section Reread.
Implicit Types (d : Dict.t) (k v : string).

Lemma env_mapping_entries f : env_mapping f = dict_of_entries (env_entries f).
Proof. by destruct f as [[|]|]. Qed.

Lemma get_read_back k d :
  Dict.get k (read_back <$> d) = Str.rstrip <$> Dict.get k d.
Proof.
  induction d as [|[k' v'] d IH]; [done|].
  rewrite fmap_cons. simpl. by case_bool_decide.
Qed.

Lemma get_elem_of k v d : Dict.get k d = Some v → (k, v) ∈ d.
Proof.
  induction d as [|[k' v'] d IH]; [done|]. simpl.
  case_bool_decide; [intros [= ->]; subst; by left|].
  intros ?%IH. by right.
Qed.

Lemma elem_of_get k v d : NoDup (Dict.keys d) → (k, v) ∈ d → Dict.get k d = Some v.
Proof.
  induction d as [|[k' v'] d IH]; [by intros _ ?%elem_of_nil|]. simpl.
  intros [Hk Hd]%NoDup_cons [[= -> ->]|Hin]%elem_of_cons.
  - by rewrite bool_decide_eq_true_2.
  - rewrite bool_decide_eq_false_2; [by apply IH|].
    intros ->. apply Hk. by apply (list_elem_of_fmap_2 fst) in Hin.
Qed.

Lemma values_of_nil k es :
  values_of k es = [] ↔ Dict.mem k (dict_of_entries es) = false.
Proof.
  rewrite <-last_None, <-get_dict_of_entries.
  rewrite <-not_true_iff_false, mem_get, eq_None_not_Some. done.
Qed.

(** A well-formed dictionary is read back from its own serialization,
    up to the white space at the end of the values. *)
Lemma reread d :
  NoDup (Dict.keys d) →
  Forall (fun kv => key_ok kv.1 ∧ no_linebreak kv.2) d →
  file_entries (serialize d) = read_back <$> d ∧
  dict_of_entries (file_entries (serialize d)) = read_back <$> d.
Proof.
  intros Hnd Hok. rewrite file_entries_serialize by done. split; [done|].
  apply dict_of_entries_fresh. by rewrite read_back_keys.
Qed.

Lemma read_back_set k v d :
  read_back <$> Dict.set k v d = Dict.set k (Str.rstrip v) (read_back <$> d).
Proof.
  induction d as [|[k' v'] d IH]; [done|]. simpl.
  case_bool_decide; simpl; [done|]. f_equal. apply IH.
Qed.

(** The entries of the file after a successful [save_token]. *)
Lemma save_token_entries token w w' :
  no_linebreak token →
  save_token_body token w = (Return tt, w') →
  let d := env_mapping (env_file w) in
  env_text w' = Some (serialize (Dict.set MONARCH_TOKEN_ENV_VAR token d)) ∧
  env_entries (env_file w') =
    Dict.set MONARCH_TOKEN_ENV_VAR (Str.rstrip token) d ∧
  env_mapping (env_file w') =
    Dict.set MONARCH_TOKEN_ENV_VAR (Str.rstrip token) d.
Proof.
  intros Htok (Hfile & _)%save_token_body_Return. cbv zeta.
  destruct (env_mapping_ok (env_file w)) as [Hnd Hok].
  set (d := env_mapping (env_file w)) in *.
  unfold env_text. rewrite Hfile, (env_mapping_entries (Some _)).
  cbn [env_entries].
  destruct (reread (Dict.set MONARCH_TOKEN_ENV_VAR token d)) as [He Hm].
  { by apply set_NoDup. }
  { apply set_Forall; [split; [apply token_key_ok|done]|].
    eapply Forall_impl; [done|]. by intros [k v] (? & ? & _). }
  rewrite Hm, He, read_back_set, read_back_id; [done|].
  eapply Forall_impl; [done|]. by intros [k v] (_ & _ & ?).
Qed.

(** The entries of the file after a successful [delete_token] that found
    the reserved key. *)
Lemma delete_token_entries w w' :
  Dict.mem MONARCH_TOKEN_ENV_VAR (env_mapping (env_file w)) = true →
  delete_token_body w = (Return tt, w') →
  let d := env_mapping (env_file w) in
  env_text w' = Some (serialize (Dict.remove MONARCH_TOKEN_ENV_VAR d)) ∧
  env_entries (env_file w') = Dict.remove MONARCH_TOKEN_ENV_VAR d ∧
  env_mapping (env_file w') = Dict.remove MONARCH_TOKEN_ENV_VAR d.
Proof.
  intros Hmem (_ & _ & Hfile)%delete_token_body_Return. cbv zeta.
  rewrite Hmem in Hfile. destruct Hfile as [Hfile _].
  destruct (env_mapping_ok (env_file w)) as [Hnd Hok].
  set (d := env_mapping (env_file w)) in *.
  unfold env_text. rewrite Hfile, (env_mapping_entries (Some _)).
  cbn [env_entries].
  destruct (reread (Dict.remove MONARCH_TOKEN_ENV_VAR d)) as [He Hm].
  { by apply remove_NoDup. }
  { apply remove_Forall. eapply Forall_impl; [done|].
    by intros [k v] (? & ? & _). }
  rewrite Hm, He, read_back_id; [done|].
  apply remove_Forall. eapply Forall_impl; [done|]. by intros [k v] (_ & _ & ?).
Qed.

Lemma save_token_Return_iff token w w' :
  save_token token w = (Return tt, w') ↔
  save_token_body token w = (Return tt, w').
Proof.
  unfold save_token, try_except.
  destruct (save_token_body token w) as [[[]|e] w1]; [done|].
  unfold bind, logger, raise. simpl. split; intros; simplify_eq.
Qed.

End Reread.

(** * The claims *)

Lemma token_entries_set v d :
  NoDup (Dict.keys d) →
  values_of MONARCH_TOKEN_ENV_VAR (Dict.set MONARCH_TOKEN_ENV_VAR v d) = [v].
Proof.
  intros Hnd. rewrite values_of_NoDup by by apply set_NoDup.
  by rewrite get_set_eq.
Qed.

Lemma token_entries_remove d :
  NoDup (Dict.keys d) →
  values_of MONARCH_TOKEN_ENV_VAR (Dict.remove MONARCH_TOKEN_ENV_VAR d) = [].
Proof.
  intros Hnd. rewrite values_of_NoDup by by apply remove_NoDup.
  assert (Dict.get MONARCH_TOKEN_ENV_VAR
            (Dict.remove MONARCH_TOKEN_ENV_VAR d) = None) as ->; [|done].
  by apply get_None_keys, remove_not_in.
Qed.

(** C1, as amended.  After [save_token token] completes successfully, for
    a [token] without line break, the file holds exactly one entry for
    [MONARCH_TOKEN]; after [delete_token] completes successfully it holds
    none; in both cases every other key that was present is still present
    with its previous value. *)
Theorem token_file_invariant (token : string) (w1 w1' w2 w2' : world) :
  no_linebreak token →
  save_token token w1 = (Return tt, w1') →
  delete_token_body w2 = (Return tt, w2') →
  (token_entries (env_file w1') = 1 ∧
   other_keys_kept (env_file w1) (env_file w1')) ∧
  (delete_token w2 = (Return tt, w2') ∧
   token_entries (env_file w2') = 0 ∧
   other_keys_kept (env_file w2) (env_file w2')).
Proof.
  intros Htok Hsave%save_token_Return_iff Hdel. split.
  - destruct (save_token_entries _ _ _ Htok Hsave) as (_ & He & Hm).
    destruct (env_mapping_ok (env_file w1)) as [Hnd _]. split.
    + unfold token_entries. rewrite He. by rewrite token_entries_set.
    + intros k v Hk Hget. rewrite Hm. by rewrite get_set_ne.
  - split; [by apply try_except_Return|].
    destruct (env_mapping_ok (env_file w2)) as [Hnd _].
    destruct (Dict.mem MONARCH_TOKEN_ENV_VAR (env_mapping (env_file w2))) eqn:Hmem.
    + destruct (delete_token_entries _ _ Hmem Hdel) as (_ & He & Hm). split.
      * unfold token_entries. rewrite He. by rewrite token_entries_remove.
      * intros k v Hk Hget. rewrite Hm. by rewrite get_remove_ne.
    + apply delete_token_body_Return in Hdel as (_ & _ & Hfile).
      rewrite Hmem in Hfile. destruct Hfile as [-> _]. split; [|by intros k v].
      unfold token_entries. rewrite env_mapping_entries in Hmem.
      apply values_of_nil in Hmem. by rewrite Hmem.
Qed.

Lemma token_file_invariant_witness :
  (token_entries (env_file (save_token "abc" (plain_world ∅ commented_file [])).2) = 1 ∧
   other_keys_kept commented_file
     (env_file (save_token "abc" (plain_world ∅ commented_file [])).2)) ∧
  (delete_token (plain_world ∅ commented_file [])
   = (Return tt, (delete_token_body (plain_world ∅ commented_file [])).2) ∧
   token_entries (env_file (delete_token_body (plain_world ∅ commented_file [])).2) = 0 ∧
   other_keys_kept commented_file
     (env_file (delete_token_body (plain_world ∅ commented_file [])).2)).
Proof.
  apply (token_file_invariant "abc"
           (plain_world ∅ commented_file []) _
           (plain_world ∅ commented_file []) _).
  - split; reflexivity.
  - vm_compute. reflexivity.
  - vm_compute. reflexivity.
Defined.

(** C1 as stated fails: a token that carries a line ["A=2"] changes the
    value of the key [A] that was in the file. *)
Lemma token_file_invariant_counterexample :
  ∃ w', save_token two_line_token (plain_world ∅ one_key_file [])
        = (Return tt, w') ∧
        Dict.get "A" (env_mapping one_key_file) = Some "1" ∧
        Dict.get "A" (env_mapping (env_file w')) = Some "2" ∧
        ¬ other_keys_kept one_key_file (env_file w').
Proof.
  exists (save_token two_line_token (plain_world ∅ one_key_file [])).2.
  split_and!; [by vm_compute..|].
  intros H. specialize (H "A" "1"). vm_compute in H.
  assert (Some "2" = Some "1") as [=]; apply H; [discriminate|reflexivity].
Qed.

(** C7, as amended.  When no file exists and the write does not fail,
    [save_token token] creates a file whose text is the one line
    [MONARCH_TOKEN=token]; for a [token] without line break and without
    white space at its end, the parsed content of that file is exactly the
    single pair [MONARCH_TOKEN=token]. *)
Theorem save_token_creates_file (token : string) (w : world) :
  env_file w = None →
  fault w OpenWrite = None → fault w WriteText = None →
  no_linebreak token → Str.rstrip token = token →
  ∃ w' raw',
    save_token token w = (Return tt, w') ∧
    env_text w' = Some raw' ∧
    raw' = "MONARCH_TOKEN=" +:+ token +:+ Str.nl ∧
    parse_env raw' = Return [(MONARCH_TOKEN_ENV_VAR, token)].
Proof.
  intros Hnone Hw Hwt Htok Hstrip.
  destruct (save_token_body_ok token w) as (w' & Hrun); [by left|done..|].
  destruct (save_token_entries _ _ _ Htok Hrun) as (Htext & _ & Hm).
  rewrite Hnone in Htext, Hm. simpl in Htext, Hm.
  exists w', (format_item (MONARCH_TOKEN_ENV_VAR, token)).
  split_and!; [by apply save_token_Return_iff| |done|].
  - rewrite Htext. unfold serialize. simpl. by rewrite sapp_nil_r.
  - rewrite parse_env_entries.
    assert (env_file w' =
            Some (EnvFile (format_item (MONARCH_TOKEN_ENV_VAR, token)))) as Hf.
    { unfold env_text in Htext. destruct (env_file w') as [[raw|]|]; try done.
      injection Htext as ->. unfold serialize. simpl. by rewrite sapp_nil_r. }
    rewrite Hf in Hm. simpl in Hm. rewrite Hm. by rewrite Hstrip.
Qed.

Lemma save_token_creates_file_witness :
  ∃ w' raw',
    save_token "abc" (plain_world ∅ None []) = (Return tt, w') ∧
    env_text w' = Some raw' ∧
    raw' = "MONARCH_TOKEN=" +:+ "abc" +:+ Str.nl ∧
    parse_env raw' = Return [(MONARCH_TOKEN_ENV_VAR, "abc")].
Proof.
  apply (save_token_creates_file "abc" (plain_world ∅ None []));
    try reflexivity.
  split; reflexivity.
Defined.

(** C7 as stated fails: the file written for a token of two lines is
    parsed as two pairs, neither of which holds the token. *)
Lemma save_token_creates_file_counterexample :
  ∃ w' raw',
    save_token two_line_token (plain_world ∅ None []) = (Return tt, w') ∧
    env_text w' = Some raw' ∧
    parse_env raw' = Return [(MONARCH_TOKEN_ENV_VAR, "t"); ("A", "2")] ∧
    parse_env raw' ≠ Return [(MONARCH_TOKEN_ENV_VAR, two_line_token)].
Proof.
  exists (save_token two_line_token (plain_world ∅ None [])).2,
         ("MONARCH_TOKEN=" +:+ two_line_token +:+ Str.nl).
  split_and!; [by vm_compute..|]. vm_compute. discriminate.
Qed.

Lemma values_of_kept (k v : string) (old : list (string * string)) (d : Dict.t) :
  NoDup (Dict.keys d) →
  Dict.get k d = Dict.get k (dict_of_entries old) →
  last (values_of k old) = Some v →
  values_of k d = [v].
Proof.
  intros Hnd Hget Hlast. rewrite values_of_NoDup by done.
  by rewrite Hget, get_dict_of_entries, Hlast.
Qed.

(** C10, as amended.  After a successful rewrite by [save_token token],
    for a [token] without line break, or by [delete_token], each key
    occurs at most once in the file; the lines of the input file that held
    one key other than [MONARCH_TOKEN] are collapsed into one entry whose
    value is that of the last of them; the entry of [MONARCH_TOKEN] holds
    the token (less the white space at its end) after [save_token], and
    there is none after [delete_token]. *)
Theorem rewrite_collapses_keys (token : string) (w1 w1' w2 w2' : world) :
  no_linebreak token →
  save_token token w1 = (Return tt, w1') →
  delete_token_body w2 = (Return tt, w2') →
  rewrites w2' ≠ rewrites w2 →
  (NoDup (env_entries (env_file w1')).*1 ∧
   values_of MONARCH_TOKEN_ENV_VAR (env_entries (env_file w1'))
   = [Str.rstrip token] ∧
   ∀ k v, k ≠ MONARCH_TOKEN_ENV_VAR →
          last (values_of k (env_entries (env_file w1))) = Some v →
          values_of k (env_entries (env_file w1')) = [v]) ∧
  (NoDup (env_entries (env_file w2')).*1 ∧
   values_of MONARCH_TOKEN_ENV_VAR (env_entries (env_file w2')) = [] ∧
   ∀ k v, k ≠ MONARCH_TOKEN_ENV_VAR →
          last (values_of k (env_entries (env_file w2))) = Some v →
          values_of k (env_entries (env_file w2')) = [v]).
Proof.
  intros Htok Hsave%save_token_Return_iff Hdel Hrw. split.
  - destruct (save_token_entries _ _ _ Htok Hsave) as (_ & He & _).
    destruct (env_mapping_ok (env_file w1)) as [Hnd _].
    rewrite He. split_and!.
    + by apply set_NoDup.
    + by apply token_entries_set.
    + intros k v Hk Hlast. eapply values_of_kept; [by apply set_NoDup| |done].
      rewrite get_set_ne by done. by rewrite env_mapping_entries.
  - assert (Dict.mem MONARCH_TOKEN_ENV_VAR (env_mapping (env_file w2)) = true)
      as Hmem.
    { apply delete_token_body_Return in Hdel as (_ & _ & Hfile).
      destruct (Dict.mem _ _); [done|]. by destruct Hfile as [_ ?]. }
    destruct (delete_token_entries _ _ Hmem Hdel) as (_ & He & _).
    destruct (env_mapping_ok (env_file w2)) as [Hnd _].
    rewrite He. split_and!.
    + by apply remove_NoDup.
    + by apply token_entries_remove.
    + intros k v Hk Hlast. eapply values_of_kept; [by apply remove_NoDup| |done].
      rewrite get_remove_ne by done. by rewrite env_mapping_entries.
Qed.

Lemma rewrite_collapses_keys_witness :
  let w := plain_world ∅
             (Some (EnvFile ("A=1" +:+ Str.nl +:+ "MONARCH_TOKEN=x" +:+ Str.nl +:+
                             "A=2" +:+ Str.nl))) [] in
  values_of "A" (env_entries (env_file w)) = ["1"; "2"] ∧
  values_of "A" (env_entries (env_file (save_token "abc" w).2)) = ["2"] ∧
  values_of "A" (env_entries (env_file (delete_token_body w).2)) = ["2"].
Proof.
  intros w.
  destruct (rewrite_collapses_keys "abc" w (save_token "abc" w).2
              w (delete_token_body w).2) as [(_ & _ & Hs) (_ & _ & Hd)].
  - split; reflexivity.
  - vm_compute. reflexivity.
  - vm_compute. reflexivity.
  - vm_compute. discriminate.
  - split_and!; [reflexivity|apply Hs|apply Hd]; (done || reflexivity).
Defined.

(** C10 as stated fails: a token of two lines leaves a key twice in the
    file, and the lines of [MONARCH_TOKEN] itself are replaced by the token,
    not by the value of the last of them. *)
Lemma rewrite_collapses_keys_counterexample :
  (∃ w', save_token two_line_token (plain_world ∅ one_key_file [])
         = (Return tt, w') ∧
         (env_entries (env_file w')).*1 = ["A"; MONARCH_TOKEN_ENV_VAR; "A"] ∧
         ¬ collapsed (env_entries one_key_file) (env_entries (env_file w'))) ∧
  (∃ w', save_token "c" (plain_world ∅ repeated_token_file [])
         = (Return tt, w') ∧
         values_of MONARCH_TOKEN_ENV_VAR (env_entries repeated_token_file)
         = ["a"; "b"] ∧
         values_of MONARCH_TOKEN_ENV_VAR (env_entries (env_file w')) = ["c"] ∧
         ¬ collapsed (env_entries repeated_token_file)
                     (env_entries (env_file w'))).
Proof.
  split.
  - exists (save_token two_line_token (plain_world ∅ one_key_file [])).2.
    split_and!; [by vm_compute..|].
    intros [Hnd _]. vm_compute in Hnd.
    apply NoDup_cons in Hnd as [Hin _]. apply Hin. right. by left.
  - exists (save_token "c" (plain_world ∅ repeated_token_file [])).2.
    split_and!; [by vm_compute..|].
    intros [_ H]. specialize (H MONARCH_TOKEN_ENV_VAR "b").
    vm_compute in H. assert (["c"] = ["b"]) as [=]. apply H; [lia|done].
Qed.

(** C2, as amended.  For a file in which [MONARCH_TOKEN] is present, a
    successful [delete_token] rewrites the file as one line [key=value] per
    key of the parsed mapping other than [MONARCH_TOKEN], each with the
    stripped value of the key's last line; no other line is written back:
    the lines of [MONARCH_TOKEN], the comment lines, the blank lines and
    the lines without ['='] are dropped. *)
Theorem delete_token_keeps_entries (raw : string) (w w' : world) :
  env_file w = Some (EnvFile raw) →
  values_of MONARCH_TOKEN_ENV_VAR (file_entries raw) ≠ [] →
  delete_token_body w = (Return tt, w') →
  ∃ raw',
    delete_token w = (Return tt, w') ∧
    env_text w' = Some raw' ∧
    Str.file_lines raw' =
      format_item <$> Dict.remove MONARCH_TOKEN_ENV_VAR (dict_of_entries (file_entries raw)) ∧
    (∀ k v, k ≠ MONARCH_TOKEN_ENV_VAR →
            last (values_of k (file_entries raw)) = Some v →
            format_item (k, v) ∈ Str.file_lines raw') ∧
    (∀ line, line ∈ Str.file_lines raw' →
             ∃ k v, line = format_item (k, v) ∧ k ≠ MONARCH_TOKEN_ENV_VAR ∧
                    last (values_of k (file_entries raw)) = Some v).
Proof.
  intros Hfile Hpresent Hdel.
  assert (Dict.mem MONARCH_TOKEN_ENV_VAR (env_mapping (env_file w)) = true)
    as Hmem.
  { rewrite Hfile. simpl. apply not_false_iff_true.
    by intros ?%values_of_nil. }
  destruct (delete_token_entries _ _ Hmem Hdel) as (Htext & _).
  destruct (env_mapping_ok (env_file w)) as [Hnd Hok].
  rewrite Hfile in Htext, Hnd, Hok. simpl in Htext, Hnd, Hok.
  set (d := dict_of_entries (file_entries raw)) in *.
  assert (Str.file_lines (serialize (Dict.remove MONARCH_TOKEN_ENV_VAR d))
          = format_item <$> Dict.remove MONARCH_TOKEN_ENV_VAR d) as Hlines.
  { apply file_lines_serialize, remove_Forall.
    eapply Forall_impl; [done|]. by intros [k v] ((_ & ? & _) & ? & _). }
  exists (serialize (Dict.remove MONARCH_TOKEN_ENV_VAR d)).
  split_and!; [by apply try_except_Return|done|done| |].
  - intros k v Hk Hlast. rewrite Hlines. apply list_elem_of_fmap_2.
    apply get_elem_of. rewrite get_remove_ne by done.
    unfold d. by rewrite get_dict_of_entries.
  - intros line. rewrite Hlines.
    intros ([k v] & -> & Hin)%list_elem_of_fmap. exists k, v.
    assert (k ≠ MONARCH_TOKEN_ENV_VAR) as Hk.
    { intros ->. apply (remove_not_in MONARCH_TOKEN_ENV_VAR d Hnd).
      by apply (list_elem_of_fmap_2 fst) in Hin. }
    split_and!; [done..|].
    apply elem_of_get in Hin; [|by apply remove_NoDup].
    rewrite get_remove_ne in Hin by done.
    unfold d in Hin. by rewrite get_dict_of_entries in Hin.
Qed.

Lemma delete_token_keeps_entries_witness :
  ∃ raw',
    delete_token (plain_world ∅ commented_file [])
    = (Return tt, (delete_token_body (plain_world ∅ commented_file [])).2) ∧
    env_text (delete_token_body (plain_world ∅ commented_file [])).2 = Some raw' ∧
    Str.file_lines raw' = ["A=1" +:+ Str.nl].
Proof.
  destruct (delete_token_keeps_entries
              ("# local settings" +:+ Str.nl +:+ "MONARCH_TOKEN=old" +:+ Str.nl +:+
               "A=1" +:+ Str.nl)
              (plain_world ∅ commented_file [])
              (delete_token_body (plain_world ∅ commented_file [])).2)
    as (raw' & H1 & H2 & H3 & _).
  - reflexivity.
  - vm_compute. discriminate.
  - vm_compute. reflexivity.
  - exists raw'. split_and!; [exact H1|exact H2|]. rewrite H3. reflexivity.
Defined.

(** C2 as stated fails: the comment line of the file does not survive the
    rewrite. *)
Lemma delete_token_keeps_entries_counterexample :
  ∃ raw raw' w',
    commented_file = Some (EnvFile raw) ∧
    delete_token (plain_world ∅ commented_file []) = (Return tt, w') ∧
    env_text w' = Some raw' ∧
    raw' = "A=1" +:+ Str.nl ∧
    ¬ other_lines_survive raw raw'.
Proof.
  eexists _, ("A=1" +:+ Str.nl), (delete_token (plain_world ∅ commented_file [])).2.
  split_and!; [reflexivity|by vm_compute..|].
  intros H. specialize (H ("# local settings" +:+ Str.nl)).
  vm_compute in H.
  assert ("# local settings" +:+ Str.nl ∈ ["A=1" +:+ Str.nl]) as Hin.
  { apply H; [by left|discriminate]. }
  apply list_elem_of_singleton in Hin. discriminate.
Qed.

(** C3, as amended.  Whatever the file holds, [load_token] returns the
    value of the environment variable [MONARCH_TOKEN] when it is set to a
    non-empty string, and absent when it is unset or empty; it touches
    neither the file nor the environment, and it never raises: whatever
    error the read of the environment raises is logged and turned into an
    absent result. *)
Theorem load_token_reads_environment (w : world)
    (getenv : string → M (option string)) (w0 w1 : world) (e : exn) :
  getenv MONARCH_TOKEN_ENV_VAR w0 = (Raise e, w1) →
  (load_token w).1 =
    Return (match environ w !! MONARCH_TOKEN_ENV_VAR with
            | Some t => if Str.truthy t then Some t else None
            | None => None
            end) ∧
  (∀ f, (load_token (set_env_file f w)).1 = (load_token w).1) ∧
  env_file (load_token w).2 = env_file w ∧
  environ (load_token w).2 = environ w ∧
  never_raises load_token ∧
  never_raises (load_token_with getenv) ∧
  load_token_with getenv w0 =
    (Return None,
     add_log (ERROR, "Failed to load token from environment: " +:+ exn_str e) w1).
Proof.
  intros Hget.
  assert (∀ g, never_raises (load_token_with g)) as Hnr.
  { intros g. apply never_raises_try. intros e'.
    apply never_raises_bind; [apply never_raises_logger|].
    intros _. apply never_raises_ret. }
  split_and!; try done.
  - rewrite load_token_cases.
    by destruct (environ w !! MONARCH_TOKEN_ENV_VAR) as [[|c t]|].
  - intros f. rewrite !load_token_cases. simpl.
    by destruct (environ w !! MONARCH_TOKEN_ENV_VAR) as [[|c t]|].
  - rewrite load_token_cases.
    by destruct (environ w !! MONARCH_TOKEN_ENV_VAR) as [[|c t]|].
  - rewrite load_token_cases.
    by destruct (environ w !! MONARCH_TOKEN_ENV_VAR) as [[|c t]|].
  - apply Hnr.
  - unfold load_token_with. erewrite try_except_Raise; [done|].
    unfold load_token_body. by erewrite bind_Raise.
Qed.

Lemma load_token_reads_environment_witness :
  (load_token (plain_world {[ MONARCH_TOKEN_ENV_VAR := "abc" ]}
                 (Some (EnvFile ("MONARCH_TOKEN=other" +:+ Str.nl))) [])).1
  = Return (Some "abc") ∧
  (load_token_with (fun _ => raise PermissionError) (plain_world ∅ None [])).1
  = Return None.
Proof.
  destruct (load_token_reads_environment
              (plain_world {[ MONARCH_TOKEN_ENV_VAR := "abc" ]}
                 (Some (EnvFile ("MONARCH_TOKEN=other" +:+ Str.nl))) [])
              (fun _ => raise PermissionError)
              (plain_world ∅ None []) (plain_world ∅ None []) PermissionError)
    as (H1 & _ & _ & _ & _ & _ & H2).
  - reflexivity.
  - split; [rewrite H1; reflexivity|rewrite H2; reflexivity].
Defined.

(** C3 as stated fails: with [MONARCH_TOKEN] set to the empty string,
    [load_token] returns absent, not the value of the variable. *)
Lemma load_token_reads_environment_counterexample :
  let w := plain_world {[ MONARCH_TOKEN_ENV_VAR := "" ]} None [] in
  environ w !! MONARCH_TOKEN_ENV_VAR = Some "" ∧
  (load_token w).1 = Return None ∧
  (load_token w).1 ≠ Return (environ w !! MONARCH_TOKEN_ENV_VAR).
Proof. split_and!; [by vm_compute..|]. vm_compute. discriminate. Qed.

(** C4.  For a file in which no line holds [MONARCH_TOKEN], [delete_token]
    returns without opening the file for writing, and the text of the
    file is what it was. *)
Theorem delete_token_absent_unchanged (raw : string) (w : world) :
  env_file w = Some (EnvFile raw) →
  values_of MONARCH_TOKEN_ENV_VAR (file_entries raw) = [] →
  ∃ w', delete_token w = (Return tt, w') ∧
        env_file w' = Some (EnvFile raw) ∧
        rewrites w' = rewrites w.
Proof.
  intros Hfile Habsent.
  assert (Dict.mem MONARCH_TOKEN_ENV_VAR (env_mapping (env_file w)) = false)
    as Hmem.
  { rewrite Hfile. simpl. by apply values_of_nil. }
  pose proof (delete_token_absent_frame w Hmem) as (_ & Hf & _ & Hrw).
  destruct (delete_token_never_raises w) as [[] Hr].
  destruct (delete_token w) as [r w'] eqn:E. simpl in *. subst r.
  exists w'. split_and!; [done|congruence|done].
Qed.

Lemma delete_token_absent_unchanged_witness :
  ∃ w', delete_token (plain_world ∅ (Some (EnvFile ("# c" +:+ Str.nl +:+ "A = 1"))) [])
        = (Return tt, w') ∧
        env_file w' = Some (EnvFile ("# c" +:+ Str.nl +:+ "A = 1")) ∧
        rewrites w' = 0.
Proof.
  apply (delete_token_absent_unchanged ("# c" +:+ Str.nl +:+ "A = 1")
           (plain_world ∅ (Some (EnvFile ("# c" +:+ Str.nl +:+ "A = 1"))) []));
    reflexivity.
Defined.

Lemma save_io_failure_raises token w e :
  save_io_failure w e → ∃ w1, save_token_body token w = (Raise e, w1).
Proof.
  unfold save_token_body.
  intros [n e' Hn Ho|Hd Ho|raw e' Hraw Ho Hr|e' Hr Ho|e' Hr Ho Hw].
  - eexists. erewrite bind_Raise; [done|].
    rewrite read_env_content_cases, Hn, Ho. done.
  - eexists. erewrite bind_Raise; [done|].
    rewrite read_env_content_cases, Hd, Ho. done.
  - eexists. erewrite bind_Raise; [done|].
    rewrite read_env_content_cases, Hraw, Ho, Hr. done.
  - destruct (read_env_content_ok w Hr) as (w1 & Hread & _ & _ & Hfa & _).
    eexists. erewrite bind_Return by done.
    erewrite bind_Raise; [done|]. unfold write_env_content.
    erewrite bind_Raise; [done|]. rewrite open_env_w_cases, Hfa, Ho. done.
  - destruct (read_env_content_ok w Hr) as (w1 & Hread & _ & Hf & Hfa & _).
    pose proof (readable_not_dir _ Hr) as Hnd.
    eexists. erewrite bind_Return by done.
    erewrite bind_Raise; [done|]. unfold write_env_content.
    erewrite bind_Return.
    2:{ rewrite open_env_w_cases, Hfa, Ho, Hf.
        by destruct (env_file w) as [[|]|]. }
    eapply env_write_all_fault; [reflexivity|simpl; by rewrite Hfa|].
    by destruct (env_mapping (env_file w)) as [|[??] ?]; simpl;
      try case_bool_decide.
Qed.

(** C5.  When the I/O on the [.env] file fails, [save_token] logs the
    error and raises it again to its caller, and so it does with any
    exception of its [try] block; [delete_token] returns normally from
    every state, having logged the exception its [try] block raised, if
    any; [load_token], the construction of the client and the clean-up
    never raise either. *)
Theorem error_policies (token : string) (w : world) (e : exn) (w2 : world) :
  save_io_failure w e →
  (∃ w', save_token token w = (Raise e, w') ∧
         last (log w') =
           Some (ERROR, "Failed to save token to .env file: " +:+ exn_str e)) ∧
  (∀ e' w1, save_token_body token w = (Raise e', w1) →
            save_token token w =
              (Raise e',
               add_log (ERROR, "Failed to save token to .env file: " +:+ exn_str e')
                 w1)) ∧
  (∃ w2', delete_token w2 = (Return tt, w2') ∧
          ∀ e2 w3, delete_token_body w2 = (Raise e2, w3) →
                   w2' = add_log (ERROR, "Failed to delete token from .env file: "
                                         +:+ exn_str e2) w3) ∧
  never_raises delete_token ∧
  never_raises load_token ∧
  never_raises _cleanup_old_session_files ∧
  (∀ Client (api : MonarchMoneyAPI Client),
     never_raises (get_authenticated_client (Client := Client))).
Proof.
  intros Hfail.
  assert (∀ e' w1, save_token_body token w = (Raise e', w1) →
            save_token token w =
              (Raise e',
               add_log (ERROR, "Failed to save token to .env file: " +:+ exn_str e')
                 w1)) as Hsave.
  { intros e' w1 Hbody. unfold save_token. by erewrite try_except_Raise. }
  assert (never_raises load_token) as Hload.
  { apply never_raises_try. intros e'.
    apply never_raises_bind; [apply never_raises_logger|].
    intros _. apply never_raises_ret. }
  split_and!; try done.
  - destruct (save_io_failure_raises token w e Hfail) as (w1 & Hbody).
    eexists. split; [by apply Hsave|]. simpl. apply last_snoc.
  - destruct (delete_token_never_raises w2) as [[] Hr].
    destruct (delete_token w2) as [r w2'] eqn:E. simpl in Hr. subst r.
    exists w2'. split; [done|]. intros e2 w3 Hbody.
    unfold delete_token in E. erewrite try_except_Raise in E by done.
    by injection E as <-.
  - apply delete_token_never_raises.
  - apply cleanup_never_raises.
  - intros Client api. unfold get_authenticated_client.
    apply never_raises_bind; [done|]. intros [t|]; [|apply never_raises_ret].
    destruct (negb (Str.truthy t)); [apply never_raises_ret|].
    apply never_raises_try. intros e'.
    apply never_raises_bind; [apply never_raises_logger|].
    intros _. apply never_raises_ret.
Qed.

Lemma error_policies_witness :
  let w := faulty_world one_key_file
             (fun op => match op with
                        | WriteText => Some (OSError "No space left on device")
                        | _ => None
                        end) in
  (save_token "abc" w).1 = Raise (OSError "No space left on device") ∧
  last (log (save_token "abc" w).2) =
    Some (ERROR, "Failed to save token to .env file: No space left on device") ∧
  (delete_token (faulty_world (Some EnvDir) no_fault)).1 = Return tt.
Proof.
  intros w.
  destruct (error_policies "abc" w (OSError "No space left on device")
              (faulty_world (Some EnvDir) no_fault))
    as ((w' & Hs & Hlog) & _ & (w2' & Hd & _) & _).
  - apply fail_write; [right; split; [by exists ("A=1" +:+ Str.nl)|by split]|
                       reflexivity..].
  - rewrite Hs, Hd. split_and!; [reflexivity|exact Hlog|reflexivity].
Defined.

(** C6.  [get_authenticated_client] returns absent when [MONARCH_TOKEN]
    is unset; when it is set to a non-empty string it returns the client
    constructed with that token, unless the construction raises, in which
    case the error is logged and the result is absent. *)
Theorem get_authenticated_client_cases
    (Client : Type) (api : MonarchMoneyAPI Client) (w : world) :
  get_authenticated_client w =
  match environ w !! MONARCH_TOKEN_ENV_VAR with
  | Some (String c t) =>
      let w1 := add_log (INFO, "Token loaded from environment variable") w in
      match MonarchMoney (String c t) with
      | Return client =>
          (Return (Some client),
           add_log (INFO, "MonarchMoney client created with stored token") w1)
      | Raise e =>
          (Return None,
           add_log (ERROR, "Failed to create MonarchMoney client: " +:+ exn_str e)
             w1)
      end
  | Some "" | None =>
      (Return None, add_log (INFO, "No token found in environment variables") w)
  end.
Proof.
  unfold get_authenticated_client. unfold bind at 1.
  rewrite load_token_cases.
  destruct (environ w !! MONARCH_TOKEN_ENV_VAR) as [[|c t]|]; try done.
  unfold try_except, lift, logger, ret, bind. simpl.
  by destruct (MonarchMoney (String c t)).
Qed.

(** C8.  [_cleanup_old_session_files] handles the three legacy paths one
    after the other and returns normally whatever happens on each.  For each
    path: an existing file is deleted; an existing empty directory is
    removed; a missing path, a non-empty directory or anything else is
    left alone; when the deletion, the listing or the removal fails, a
    warning is logged, the path is left as it was and the loop goes on. *)
Theorem cleanup_old_session_files_spec (w : world) :
  (∃ w1 w2 w3,
     cleanup_one [".mm"; "mm_session.pickle"] w = (Return tt, w1) ∧
     cleanup_one ["monarch_session.json"] w1 = (Return tt, w2) ∧
     cleanup_one [".mm"] w2 = (Return tt, w3) ∧
     _cleanup_old_session_files w = (Return tt, w3)) ∧
  ∀ p w0, ∃ w1,
    cleanup_one p w0 = (Return tt, w1) ∧ fault w1 = fault w0 ∧
    let warned e :=
      cwd w1 = cwd w0 ∧
      last (log w1) =
        Some (WARNING, "Could not clean up " +:+ path_str p +:+ ": " +:+ exn_str e) in
    match resolve p (cwd w0) with
    | Some (File _) =>
        match fault w0 (Remove p) with
        | None => resolve p (cwd w1) = None
        | Some e => warned e
        end
    | Some (Dir []) =>
        match fault w0 (Listdir p), fault w0 (Rmdir p) with
        | None, None => resolve p (cwd w1) = None
        | Some e, _ | None, Some e => warned e
        end
    | Some (Dir (_ :: _)) =>
        match fault w0 (Listdir p) with
        | None => cwd w1 = cwd w0 ∧ log w1 = log w0
        | Some e => warned e
        end
    | Some Special | None => w1 = w0
    end.
Proof.
  assert (∀ p w0, ∃ w1, cleanup_one p w0 = (Return tt, w1)) as Hstep.
  { intros p w0. destruct (cleanup_one_never_raises p w0) as [[] Hr].
    destruct (cleanup_one p w0) as [r w1]. simpl in Hr. subst r. by exists w1. }
  split.
  - destruct (Hstep [".mm"; "mm_session.pickle"] w) as [w1 H1].
    destruct (Hstep ["monarch_session.json"] w1) as [w2 H2].
    destruct (Hstep [".mm"] w2) as [w3 H3].
    exists w1, w2, w3. split_and!; try done.
    unfold _cleanup_old_session_files, cleanup_paths. simpl.
    erewrite bind_Return by done. erewrite bind_Return by done.
    by erewrite bind_Return by done.
  - intros p w0. rewrite cleanup_one_cases. cbv zeta.
    destruct (resolve p (cwd w0)) as [[c|[|[n c] children]|]|] eqn:E.
    + destruct (fault w0 (Remove p)) eqn:F; eexists; split_and!; try done;
        simpl; [apply last_snoc|apply resolve_unlink].
    + destruct (fault w0 (Listdir p)) eqn:F;
        [|destruct (fault w0 (Rmdir p)) eqn:F']; eexists; split_and!; try done;
        simpl; [apply last_snoc..|apply resolve_unlink].
    + destruct (fault w0 (Listdir p)) eqn:F; eexists; split_and!; try done.
      simpl. apply last_snoc.
    + by eexists.
    + by eexists.
Qed.

(** C9.  With [MONARCH_TOKEN] set to the empty string, [load_token]
    returns absent, and so does [get_authenticated_client]. *)
Theorem empty_token_is_absent
    (Client : Type) (api : MonarchMoneyAPI Client) (w : world) :
  environ w !! MONARCH_TOKEN_ENV_VAR = Some "" →
  (load_token w).1 = Return None ∧
  (get_authenticated_client w).1 = Return (@None Client).
Proof.
  intros Henv. split.
  - by rewrite load_token_cases, Henv.
  - unfold get_authenticated_client, bind.
    by rewrite load_token_cases, Henv.
Qed.

Lemma empty_token_is_absent_witness :
  let w := plain_world {[ MONARCH_TOKEN_ENV_VAR := "" ]} one_key_file [] in
  (load_token w).1 = Return None ∧
  (get_authenticated_client w).1 = Return (@None example_client).
Proof.
  intros w. apply (empty_token_is_absent example_client example_api w).
  reflexivity.
Defined.

(** * Runs on concrete worlds *)

Example client_from_environment :
  (get_authenticated_client
     (plain_world {[ MONARCH_TOKEN_ENV_VAR := "abc" ]} None [])).1
  = Return (Some {| client_token := "abc" |}).
Proof. reflexivity. Qed.

Example client_construction_fails :
  get_authenticated_client
    (plain_world {[ MONARCH_TOKEN_ENV_VAR := "expired" ]} None [])
  = (Return (@None example_client),
     World {[ MONARCH_TOKEN_ENV_VAR := "expired" ]} None [] no_fault
       [(INFO, "Token loaded from environment variable");
        (ERROR, "Failed to create MonarchMoney client: not enough values to unpack")]
       []).
Proof. reflexivity. Qed.

Example client_without_token :
  (get_authenticated_client (plain_world ∅ one_key_file [])).1
  = Return (@None example_client).
Proof. reflexivity. Qed.

(** The session file is deleted first, which empties [.mm], so that the
    directory is removed by the third iteration. *)
Example cleanup_removes_legacy_files :
  let w := plain_world ∅ None
             [(".mm", Dir [("mm_session.pickle", File "x")]);
              ("monarch_session.json", File "{}");
              ("notes.txt", File "keep")] in
  (_cleanup_old_session_files w).1 = Return tt ∧
  cwd (_cleanup_old_session_files w).2 = [("notes.txt", File "keep")].
Proof. split; reflexivity. Qed.

(** A directory that holds something else stays, and a failing deletion
    does not stop the loop. *)
Example cleanup_goes_on_after_failure :
  let w := World ∅ None
             [(".mm", Dir [("mm_session.pickle", File "x"); ("other", File "")]);
              ("monarch_session.json", File "{}")]
             (fun op => match op with
                        | Remove [".mm"; "mm_session.pickle"] => Some PermissionError
                        | _ => None
                        end) [] [] in
  (_cleanup_old_session_files w).1 = Return tt ∧
  cwd (_cleanup_old_session_files w).2 =
    [(".mm", Dir [("mm_session.pickle", File "x"); ("other", File "")])] ∧
  log (_cleanup_old_session_files w).2 =
    [(WARNING, "Could not clean up .mm/mm_session.pickle: Permission denied");
     (INFO, "Cleaned up old insecure session file: monarch_session.json")].
Proof. split_and!; reflexivity. Qed.

Example save_then_reload :
  env_text (save_token "abc" (plain_world ∅ commented_file [])).2
  = Some ("MONARCH_TOKEN=abc" +:+ Str.nl +:+ "A=1" +:+ Str.nl).
Proof. reflexivity. Qed.

(** * Further properties *)

(** ** What the operations leave alone *)

Global Instance io_frame_preorder : PreOrder io_frame.
Proof.
  split; [by intros w|].
  intros w1 w2 w3 [??] [??]. unfold io_frame. split; congruence.
Qed.

Global Instance cwd_frame_preorder : PreOrder cwd_frame.
Proof.
  split; [by intros w|]. intros w1 w2 w3 ??. unfold cwd_frame in *. congruence.
Qed.

(** A primitive, run from any world. *)
Ltac keeps_prim :=
  let w := fresh "w" in
  intros w;
  unfold read_env_lines, open_env_w, env_write, os_listdir, os_remove,
    os_rmdir, env_file_exists, os_getenv, os_path_exists, os_path_isfile,
    os_path_isdir, syscall, logger, ret, raise, lift, bind;
  repeat case_match; simplify_eq/=; solve [done | by split].

Lemma keeps_io_frame_read : keeps io_frame read_env_content.
Proof.
  unfold read_env_content.
  apply (keeps_bind io_frame); [keeps_prim|]. intros [|]; [|keeps_prim].
  apply (keeps_bind io_frame); [keeps_prim|]. intros lines. keeps_prim.
Qed.

Lemma keeps_io_frame_write d : keeps io_frame (write_env_content d).
Proof.
  unfold write_env_content.
  apply (keeps_bind io_frame); [keeps_prim|]. intros _.
  apply (keeps_for_each io_frame). intros kv. keeps_prim.
Qed.

Lemma keeps_io_frame_cleanup : keeps io_frame _cleanup_old_session_files.
Proof.
  intros w. destruct (keeps_env_frame_cleanup w) as (? & _ & ? & _). by split.
Qed.

Lemma keeps_io_frame_save token : keeps io_frame (save_token token).
Proof.
  apply (keeps_try io_frame); [|intros e; keeps_prim].
  apply (keeps_bind io_frame); [apply keeps_io_frame_read|]. intros d.
  apply (keeps_bind io_frame); [apply keeps_io_frame_write|]. intros _.
  apply (keeps_bind io_frame); [keeps_prim|]. intros _.
  apply keeps_io_frame_cleanup.
Qed.

Lemma keeps_io_frame_delete : keeps io_frame delete_token.
Proof.
  apply (keeps_try io_frame); [|intros e; keeps_prim].
  apply (keeps_bind io_frame); [apply keeps_io_frame_read|]. intros d.
  apply (keeps_bind io_frame); [|intros _; apply keeps_io_frame_cleanup].
  destruct (Dict.mem MONARCH_TOKEN_ENV_VAR d); [|keeps_prim].
  apply (keeps_bind io_frame); [keeps_prim|]. intros d'.
  apply (keeps_bind io_frame); [apply keeps_io_frame_write|]. intros _.
  keeps_prim.
Qed.



Lemma set_set k v1 v2 (d : Dict.t) :
  Dict.set k v2 (Dict.set k v1 d) = Dict.set k v2 d.
Proof.
  induction d as [|[k' v'] d IH]; simpl.
  - by rewrite bool_decide_eq_true_2.
  - case_bool_decide as E; simpl.
    + by rewrite bool_decide_eq_true_2.
    + rewrite bool_decide_eq_false_2 by done. by rewrite IH.
Qed.

Lemma remove_set k v (d : Dict.t) :
  Dict.remove k (Dict.set k v d) = Dict.remove k d.
Proof.
  induction d as [|[k' v'] d IH]; simpl.
  - by rewrite bool_decide_eq_true_2.
  - case_bool_decide as E; simpl.
    + by rewrite bool_decide_eq_true_2.
    + rewrite bool_decide_eq_false_2 by done. by rewrite IH.
Qed.

Lemma remove_absent k (d : Dict.t) : Dict.mem k d = false → Dict.remove k d = d.
Proof.
  induction d as [|[k' v'] d IH]; simpl; [done|].
  intros [Hk Hd]%orb_false_iff. rewrite Hk. by rewrite IH.
Qed.

Lemma mem_set k v (d : Dict.t) : Dict.mem k (Dict.set k v d) = true.
Proof. apply mem_get. rewrite get_set_eq. eauto. Qed.

Lemma mem_remove k (d : Dict.t) :
  NoDup (Dict.keys d) → Dict.mem k (Dict.remove k d) = false.
Proof.
  intros Hnd. apply not_true_iff_false. rewrite mem_keys.
  by apply remove_not_in.
Qed.

Lemma save_token_Raise_inv token w e w' :
  save_token token w = (Raise e, w') →
  ∃ w1, save_token_body token w = (Raise e, w1) ∧
        w' = add_log (ERROR, "Failed to save token to .env file: " +:+ exn_str e) w1.
Proof.
  unfold save_token, try_except.
  destruct (save_token_body token w) as [[[]|e1] w1]; [done|].
  unfold bind, logger, raise. simpl. intros [= -> <-]. eauto.
Qed.

Lemma write_env_content_denied d w e :
  fault w OpenWrite = Some e →
  write_env_content d w = (Raise e, add_trace OpenWrite w).
Proof.
  intros Ho. unfold write_env_content. erewrite bind_Raise; [done|].
  by rewrite open_env_w_cases, Ho.
Qed.


(** X2.  Saving twice leaves only the second value under
    [MONARCH_TOKEN]: after [save_token t1] and then [save_token t2], both
    successful and the tokens without line break, the text of the file is
    the text a single [save_token t2] from the first state writes, and
    the file holds one entry for the key, with [t2] (less the white space
    at its end). *)
Theorem save_token_twice (t1 t2 : string) (w w1 w2 : world) :
  no_linebreak t1 → no_linebreak t2 →
  save_token t1 w = (Return tt, w1) →
  save_token t2 w1 = (Return tt, w2) →
  env_text w2 =
    Some (serialize (Dict.set MONARCH_TOKEN_ENV_VAR t2 (env_mapping (env_file w)))) ∧
  (∀ w2', save_token t2 w = (Return tt, w2') → env_text w2' = env_text w2) ∧
  values_of MONARCH_TOKEN_ENV_VAR (env_entries (env_file w2)) = [Str.rstrip t2].
Proof.
  intros H1 H2 Hs1%save_token_Return_iff Hs2%save_token_Return_iff.
  destruct (save_token_entries _ _ _ H1 Hs1) as (_ & _ & Hm1).
  destruct (save_token_entries _ _ _ H2 Hs2) as (Ht2 & He2 & _).
  rewrite Hm1, set_set in Ht2, He2.
  destruct (env_mapping_ok (env_file w)) as [Hnd _].
  split_and!; [done| |by rewrite He2, token_entries_set].
  intros w2' Hd%save_token_Return_iff.
  destruct (save_token_entries _ _ _ H2 Hd) as (Ht & _). by rewrite Ht, Ht2.
Qed.

Lemma save_token_twice_witness :
  let w := plain_world ∅ commented_file [] in
  env_text (save_token "second" (save_token "first" w).2).2 =
    Some ("MONARCH_TOKEN=second" +:+ Str.nl +:+ "A=1" +:+ Str.nl) ∧
  values_of MONARCH_TOKEN_ENV_VAR
    (env_entries (env_file (save_token "second" (save_token "first" w).2).2))
  = ["second"].
Proof.
  intros w.
  destruct (save_token_twice "first" "second" w (save_token "first" w).2
              (save_token "second" (save_token "first" w).2).2)
    as (Ht & _ & Hv).
  - split; reflexivity.
  - split; reflexivity.
  - vm_compute. reflexivity.
  - vm_compute. reflexivity.
  - split; [rewrite Ht; reflexivity|rewrite Hv; reflexivity].
Defined.

(** X3.  Saving and then deleting: after a successful [save_token token]
    (token without line break) followed by a successful [delete_token],
    the mapping of the file is the mapping it had at first without
    [MONARCH_TOKEN]; when the key was not in the file at first, it is the
    mapping it had at first. *)
Theorem save_then_delete (token : string) (w w1 w2 : world) :
  no_linebreak token →
  save_token token w = (Return tt, w1) →
  delete_token_body w1 = (Return tt, w2) →
  delete_token w1 = (Return tt, w2) ∧
  env_mapping (env_file w2) =
    Dict.remove MONARCH_TOKEN_ENV_VAR (env_mapping (env_file w)) ∧
  (Dict.mem MONARCH_TOKEN_ENV_VAR (env_mapping (env_file w)) = false →
   env_mapping (env_file w2) = env_mapping (env_file w)) ∧
  rewrites w2 = S (S (rewrites w)).
Proof.
  intros Htok Hs%save_token_Return_iff Hd.
  destruct (save_token_entries _ _ _ Htok Hs) as (_ & _ & Hm1).
  apply save_token_body_Return in Hs as (_ & _ & _ & Hr1).
  assert (Dict.mem MONARCH_TOKEN_ENV_VAR (env_mapping (env_file w1)) = true)
    as Hmem by (rewrite Hm1; apply mem_set).
  destruct (delete_token_entries _ _ Hmem Hd) as (_ & _ & Hm2).
  apply delete_token_body_Return in Hd as Hd'. destruct Hd' as (_ & _ & Hf).
  rewrite Hmem in Hf. destruct Hf as [_ Hr2].
  rewrite Hm1, remove_set in Hm2.
  split_and!; [by apply try_except_Return|done| |congruence].
  intros Habs. by rewrite Hm2, remove_absent.
Qed.

Lemma save_then_delete_witness :
  let w := plain_world ∅ one_key_file [] in
  env_mapping (env_file (delete_token_body (save_token "abc" w).2).2)
  = [("A", "1")] ∧
  rewrites (delete_token_body (save_token "abc" w).2).2 = 2.
Proof.
  intros w.
  destruct (save_then_delete "abc" w (save_token "abc" w).2
              (delete_token_body (save_token "abc" w).2).2)
    as (_ & Hm & _ & Hr).
  - split; reflexivity.
  - vm_compute. reflexivity.
  - vm_compute. reflexivity.
  - split; [rewrite Hm; reflexivity|rewrite Hr; reflexivity].
Defined.

(** X4.  Deleting twice: after a successful [delete_token], a second
    [delete_token] returns normally, does not open the file for writing
    and leaves it as the first one left it. *)
Theorem delete_token_twice (w w1 : world) :
  delete_token_body w = (Return tt, w1) →
  ∃ w2, delete_token w1 = (Return tt, w2) ∧
        env_file w2 = env_file w1 ∧
        rewrites w2 = rewrites w1.
Proof.
  intros Hd.
  assert (Dict.mem MONARCH_TOKEN_ENV_VAR (env_mapping (env_file w1)) = false)
    as Hmem.
  { destruct (env_mapping_ok (env_file w)) as [Hnd _].
    destruct (Dict.mem MONARCH_TOKEN_ENV_VAR (env_mapping (env_file w))) eqn:Hm.
    - destruct (delete_token_entries _ _ Hm Hd) as (_ & _ & ->).
      by apply mem_remove.
    - apply delete_token_body_Return in Hd as (_ & _ & Hf).
      rewrite Hm in Hf. destruct Hf as [-> _]. done. }
  pose proof (delete_token_absent_frame w1 Hmem) as (_ & Hf & _ & Hrw).
  destruct (delete_token_never_raises w1) as [[] Hr].
  destruct (delete_token w1) as [r w2] eqn:E. simpl in *. subst r.
  exists w2. by split_and!.
Qed.

Lemma delete_token_twice_witness :
  let w := plain_world ∅ commented_file [] in
  ∃ w2, delete_token (delete_token_body w).2 = (Return tt, w2) ∧
        env_file w2 = env_file (delete_token_body w).2 ∧
        rewrites w2 = rewrites (delete_token_body w).2.
Proof.
  intros w. apply (delete_token_twice w (delete_token_body w).2).
  vm_compute. reflexivity.
Defined.

(** X5.  [save_token] keeps the order of the lines: a file that held
    [MONARCH_TOKEN] has it afterwards at the place of its first line, a
    file that did not has it as its last line, and the other keys keep
    their order. *)
Theorem save_token_keeps_order (token : string) (w w' : world) :
  no_linebreak token →
  save_token token w = (Return tt, w') →
  (env_entries (env_file w')).*1 =
    if Dict.mem MONARCH_TOKEN_ENV_VAR (env_mapping (env_file w))
    then Dict.keys (env_mapping (env_file w))
    else Dict.keys (env_mapping (env_file w)) ++ [MONARCH_TOKEN_ENV_VAR].
Proof.
  intros Htok Hs%save_token_Return_iff.
  destruct (save_token_entries _ _ _ Htok Hs) as (_ & -> & _).
  apply set_keys.
Qed.

Lemma save_token_keeps_order_witness :
  (env_entries (env_file (save_token "abc" (plain_world ∅ commented_file [])).2)).*1
  = [MONARCH_TOKEN_ENV_VAR; "A"] ∧
  (env_entries (env_file (save_token "abc" (plain_world ∅ one_key_file [])).2)).*1
  = ["A"; MONARCH_TOKEN_ENV_VAR].
Proof.
  split.
  - rewrite (save_token_keeps_order "abc" (plain_world ∅ commented_file [])
               (save_token "abc" (plain_world ∅ commented_file [])).2);
      [reflexivity|split; reflexivity|vm_compute; reflexivity].
  - rewrite (save_token_keeps_order "abc" (plain_world ∅ one_key_file [])
               (save_token "abc" (plain_world ∅ one_key_file [])).2);
      [reflexivity|split; reflexivity|vm_compute; reflexivity].
Defined.

(** X6.  [save_token] and [delete_token] never change the process
    environment, whatever their outcome: [load_token] and
    [get_authenticated_client] return after them what they returned
    before, so that a token just saved is not the one loaded. *)
Theorem environment_untouched
    (Client : Type) (api : MonarchMoneyAPI Client) (token : string) (w : world) :
  environ (save_token token w).2 = environ w ∧
  environ (delete_token w).2 = environ w ∧
  (load_token (save_token token w).2).1 = (load_token w).1 ∧
  (load_token (delete_token w).2).1 = (load_token w).1 ∧
  (get_authenticated_client (Client := Client) (save_token token w).2).1
  = (get_authenticated_client w).1 ∧
  (get_authenticated_client (Client := Client) (delete_token w).2).1
  = (get_authenticated_client w).1.
Proof.
  destruct (keeps_io_frame_save token w) as [Hs _].
  destruct (keeps_io_frame_delete w) as [Hd _].
  split_and!; try done.
  - rewrite !load_token_cases, Hs.
    by destruct (environ w !! MONARCH_TOKEN_ENV_VAR) as [[|c t]|].
  - rewrite !load_token_cases, Hd.
    by destruct (environ w !! MONARCH_TOKEN_ENV_VAR) as [[|c t]|].
  - unfold get_authenticated_client, bind. rewrite !load_token_cases, Hs.
    destruct (environ w !! MONARCH_TOKEN_ENV_VAR) as [[|c t]|]; try done.
    simpl. unfold try_except, lift, logger, ret.
    by destruct (MonarchMoney (String c t)).
  - unfold get_authenticated_client, bind. rewrite !load_token_cases, Hd.
    destruct (environ w !! MONARCH_TOKEN_ENV_VAR) as [[|c t]|]; try done.
    simpl. unfold try_except, lift, logger, ret.
    by destruct (MonarchMoney (String c t)).
Qed.



(** X8.  When the file cannot be opened for writing, [save_token] and
    [delete_token] leave it as it was: nothing is lost by a failed
    rewrite of that kind. *)
Theorem denied_write_keeps_file (token : string) (w : world) (e : exn) :
  fault w OpenWrite = Some e →
  env_file (save_token token w).2 = env_file w ∧
  env_file (delete_token w).2 = env_file w.
Proof.
  intros Ho. split.
  - unfold save_token, try_except, save_token_body. unfold bind at 1.
    destruct (keeps_env_frame_read w) as (_ & Hf & Hfa & _).
    destruct (read_env_content w) as [[d|e1] w1]; simpl in *; [|done].
    unfold bind at 1. rewrite (write_env_content_denied _ _ e) by congruence.
    done.
  - destruct (Dict.mem MONARCH_TOKEN_ENV_VAR (env_mapping (env_file w))) eqn:Hm.
    + unfold delete_token, try_except, delete_token_body. unfold bind at 1.
      destruct (keeps_env_frame_read w) as (_ & Hf & Hfa & _).
      destruct (read_env_content w) as [[d|e1] w1] eqn:Hread; simpl in *; [|done].
      apply read_env_content_Return in Hread as [-> _].
      rewrite Hm. unfold Dict.del. rewrite Hm. unfold bind at 1, bind at 1, lift.
      unfold bind at 1. rewrite (write_env_content_denied _ _ e) by congruence.
      done.
    + by destruct (delete_token_absent_frame w Hm) as (_ & ? & _).
Qed.

Lemma denied_write_keeps_file_witness :
  env_file (save_token "abc" (faulty_world commented_file read_only)).2
  = commented_file ∧
  env_file (delete_token (faulty_world commented_file read_only)).2
  = commented_file.
Proof.
  apply (denied_write_keeps_file "abc" (faulty_world commented_file read_only)
           PermissionError).
  reflexivity.
Defined.



Lemma save_io_failure_unique token w e e' w' :
  save_io_failure w e' → save_token token w = (Raise e, w') → e = e'.
Proof.
  intros (w1 & Hbody)%(save_io_failure_raises token) (w2 & Hbody' & _)%save_token_Raise_inv.
  congruence.
Qed.

(** X10.  [save_token] raises only when the I/O on the file fails: what
    the file holds (comments, lines without ['='], repeated keys, any
    text) never makes it raise, and neither does a failure of the
    clean-up. *)
Theorem save_token_raises_only_on_io_failure
    (token : string) (w w' : world) (e : exn) :
  save_token token w = (Raise e, w') → save_io_failure w e.
Proof.
  intros Hraise.
  assert (∀ e', save_io_failure w e' → save_io_failure w e) as Huse.
  { intros e' Hf. by rewrite (save_io_failure_unique _ _ _ _ _ Hf Hraise). }
  assert (readable w → save_io_failure w e) as Hreadable.
  { intros Hr.
    destruct (fault w OpenWrite) as [e1|] eqn:Ho;
      [by apply (Huse e1), fail_open_write|].
    destruct (fault w WriteText) as [e1|] eqn:Hw;
      [by apply (Huse e1), fail_write|].
    destruct (save_token_body_ok token w) as (w1 & Hok); [done..|].
    apply save_token_Return_iff in Hok. congruence. }
  destruct (env_file w) as [[raw|]|] eqn:E.
  - destruct (fault w OpenRead) as [e1|] eqn:Ho;
      [by apply (Huse e1), (fail_open_read _ (EnvFile raw))|].
    destruct (fault w ReadText) as [e1|] eqn:Hr;
      [by apply (Huse e1), (fail_read _ raw)|].
    apply Hreadable. right. eauto.
  - destruct (fault w OpenRead) as [e1|] eqn:Ho;
      [by apply (Huse e1), (fail_open_read _ EnvDir)|].
    by apply (Huse IsADirectoryError), fail_is_a_directory.
  - apply Hreadable. by left.
Qed.

Lemma save_token_raises_only_on_io_failure_witness :
  save_io_failure (faulty_world commented_file read_only) PermissionError.
Proof.
  apply (save_token_raises_only_on_io_failure "abc"
           (faulty_world commented_file read_only)
           (save_token "abc" (faulty_world commented_file read_only)).2).
  vm_compute. reflexivity.
Defined.

(** ** The format *)

(** X11.  Round trip of the format: a dictionary with distinct keys, each
    fit to start a line, and values without line break or white space at
    their end, is read back from what the write loop writes for it, one
    line per pair and in the same order. *)
Theorem format_round_trip (d : Dict.t) :
  wf_dict d →
  parse_env (serialize d) = Return d ∧
  Str.file_lines (serialize d) = format_item <$> d.
Proof.
  intros [Hnd Hok]. split.
  - rewrite parse_env_entries.
    destruct (reread d Hnd) as [_ ->].
    { eapply Forall_impl; [done|]. by intros [k v] (? & ? & _). }
    f_equal. apply read_back_id.
    eapply Forall_impl; [done|]. by intros [k v] (_ & _ & ?).
  - apply file_lines_serialize.
    eapply Forall_impl; [done|]. by intros [k v] ((_ & ? & _) & ? & _).
Qed.

Lemma format_round_trip_witness :
  parse_env (serialize [("A", "1"); ("URL", " https://x/?q=1")])
  = Return [("A", "1"); ("URL", " https://x/?q=1")].
Proof.
  apply (format_round_trip [("A", "1"); ("URL", " https://x/?q=1")]).
  split.
  - apply (bool_decide_unpack _). vm_compute. exact I.
  - repeat constructor; simpl; by intros [=].
Defined.

(** X12.  Reading never fails on the text of the file: whatever the file
    holds, the read loop returns a dictionary; the dictionary has distinct
    keys and well-formed pairs, holds for each key the value of its last
    line, and is read back unchanged from its own rewrite, so that a
    second rewrite changes nothing. *)
Theorem parse_env_normal_form (raw : string) :
  ∃ d, parse_env raw = Return d ∧
       wf_dict d ∧
       (∀ k, Dict.get k d = last (values_of k (file_entries raw))) ∧
       parse_env (serialize d) = Return d.
Proof.
  exists (dict_of_entries (file_entries raw)).
  destruct (env_mapping_ok (Some (EnvFile raw))) as [Hnd Hok].
  simpl in Hnd, Hok.
  split_and!; [apply parse_env_entries|by split
              |intros k; apply get_dict_of_entries|].
  rewrite parse_env_entries. f_equal.
  destruct (reread (dict_of_entries (file_entries raw)) Hnd) as [_ ->].
  { eapply Forall_impl; [done|]. by intros [k v] (? & ? & _). }
  apply read_back_id.
  eapply Forall_impl; [done|]. by intros [k v] (_ & _ & ?).
Qed.

(** ** The clean-up and the rest of the directory *)

Lemma assoc_filter_other name x entries :
  name ≠ x → assoc name (filter (fun e => e.1 ≠ x) entries) = assoc name entries.
Proof.
  intros Hne. induction entries as [|[n c] entries IH]; [done|].
  rewrite filter_cons. simpl. case_decide as E; simpl.
  - by rewrite IH.
  - subst n. by rewrite bool_decide_eq_false_2.
Qed.

Lemma assoc_unlink_other name x p entries :
  name ≠ x → assoc name (unlink (x :: p) entries) = assoc name entries.
Proof.
  intros Hne. destruct p as [|y p].
  - by apply assoc_filter_other.
  - cbn [unlink]. rewrite assoc_fmap.
    + simpl. rewrite bool_decide_eq_false_2 by done. by destruct (assoc name entries).
    + intros [n c]. simpl. case_bool_decide; [|done]. by destruct c.
Qed.

(** What a path denotes depends on the entry of its first component. *)
Lemma resolve_assoc x p entries entries' :
  assoc x entries = assoc x entries' →
  resolve (x :: p) entries = resolve (x :: p) entries'.
Proof. intros H. destruct p; simpl; by rewrite H. Qed.

Lemma resolve_unlink_other x p y q entries :
  x ≠ y → resolve (x :: p) (unlink (y :: q) entries) = resolve (x :: p) entries.
Proof. intros Hne. by apply resolve_assoc, assoc_unlink_other. Qed.

Lemma resolve_assoc_None x p entries :
  assoc x entries = None → resolve (x :: p) entries = None.
Proof. intros H. destruct p; simpl; by rewrite H. Qed.

(** The directory after one iteration of the clean-up loop. *)
Lemma cleanup_one_cwd p w :
  cwd (cleanup_one p w).2 = cleanup_cwd (fault w) p (cwd w) ∧
  fault (cleanup_one p w).2 = fault w.
Proof.
  rewrite cleanup_one_cases. unfold cleanup_cwd, unlinks. cbv zeta.
  destruct (resolve p (cwd w)) as [[c|[|[n c] children]|]|]; try done.
  - by destruct (fault w (Remove p)).
  - destruct (fault w (Listdir p)); [done|]. by destruct (fault w (Rmdir p)).
  - by destruct (fault w (Listdir p)).
Qed.

(** The loop is the three iterations in a row. *)
Lemma cleanup_steps w :
  _cleanup_old_session_files w =
  (Return tt,
   (cleanup_one [".mm"]
      (cleanup_one ["monarch_session.json"]
         (cleanup_one [".mm"; "mm_session.pickle"] w).2).2).2).
Proof.
  assert (∀ p w0, cleanup_one p w0 = (Return tt, (cleanup_one p w0).2)) as Hstep.
  { intros p w0. destruct (cleanup_one_never_raises p w0) as [[] Hr].
    destruct (cleanup_one p w0) as [r w1]. simpl in *. by subst. }
  unfold _cleanup_old_session_files, cleanup_paths. simpl.
  erewrite bind_Return by apply Hstep.
  erewrite bind_Return by apply Hstep.
  by erewrite bind_Return by apply Hstep.
Qed.

Lemma cleanup_cwd_eq w :
  cwd (_cleanup_old_session_files w).2 =
  cleanup_cwd (fault w) [".mm"]
    (cleanup_cwd (fault w) ["monarch_session.json"]
       (cleanup_cwd (fault w) [".mm"; "mm_session.pickle"] (cwd w))).
Proof.
  rewrite cleanup_steps. simpl.
  destruct (cleanup_one_cwd [".mm"; "mm_session.pickle"] w) as [H1 F1].
  destruct (cleanup_one_cwd ["monarch_session.json"]
              (cleanup_one [".mm"; "mm_session.pickle"] w).2) as [H2 F2].
  destruct (cleanup_one_cwd [".mm"]
              (cleanup_one ["monarch_session.json"]
                 (cleanup_one [".mm"; "mm_session.pickle"] w).2).2) as [H3 F3].
  rewrite H3, H2, H1, F2, F1. done.
Qed.

Global Instance other_entries_kept_preorder : PreOrder other_entries_kept.
Proof.
  split.
  - intros w. split; [done|]. intros children' H. by exists children'.
  - intros w1 w2 w3 [H1 H1'] [H2 H2']. split.
    + intros name Hn. by rewrite H2, H1.
    + intros ch3 H3. destruct (H2' _ H3) as (ch2 & Hc2 & Hk2).
      destruct (H1' _ Hc2) as (ch1 & Hc1 & Hk1).
      exists ch1. split; [done|]. intros name Hn. by rewrite Hk2, Hk1.
Qed.






Lemma unlinks_resolve flt p entries entries' :
  resolve p entries = resolve p entries' →
  unlinks flt p entries = unlinks flt p entries'.
Proof. unfold unlinks. by intros ->. Qed.

Lemma unlinks_None flt p entries :
  resolve p entries = None → unlinks flt p entries = false.
Proof. unfold unlinks. by intros ->. Qed.

(** An iteration leaves nothing that the same iteration would unlink. *)
Lemma unlinks_cleanup_cwd flt p entries :
  unlinks flt p (cleanup_cwd flt p entries) = false.
Proof.
  unfold cleanup_cwd. destruct (unlinks flt p entries) eqn:E; [|done].
  apply unlinks_None, resolve_unlink.
Qed.

Lemma cleanup_cwd_fixed flt p entries :
  unlinks flt p entries = false → cleanup_cwd flt p entries = entries.
Proof. unfold cleanup_cwd. by intros ->. Qed.

Lemma resolve_cleanup_cwd_other flt x p y q entries :
  x ≠ y →
  resolve (x :: p) (cleanup_cwd flt (y :: q) entries) = resolve (x :: p) entries.
Proof.
  intros Hne. unfold cleanup_cwd.
  destruct (unlinks flt (y :: q) entries); [|done].
  by apply resolve_unlink_other.
Qed.

(** X14.  The clean-up is idempotent on the working directory: run a
    second time, under the same failures, it removes nothing more. *)
Theorem cleanup_idempotent (w : world) :
  cwd (_cleanup_old_session_files (_cleanup_old_session_files w).2).2
  = cwd (_cleanup_old_session_files w).2.
Proof.
  assert (fault (_cleanup_old_session_files w).2 = fault w) as Hfault.
  { by destruct (keeps_env_frame_cleanup w) as (_ & _ & ? & _). }
  rewrite (cleanup_cwd_eq (_cleanup_old_session_files w).2), Hfault.
  rewrite (cleanup_cwd_eq w).
  set (flt := fault w).
  set (E1 := cleanup_cwd flt [".mm"; "mm_session.pickle"] (cwd w)).
  set (E2 := cleanup_cwd flt ["monarch_session.json"] E1).
  set (E3 := cleanup_cwd flt [".mm"] E2).
  assert (unlinks flt [".mm"; "mm_session.pickle"] E3 = false) as H1.
  { unfold E3, cleanup_cwd. destruct (unlinks flt [".mm"] E2).
    - apply unlinks_None, resolve_assoc_None. simpl. apply assoc_filter_ne.
    - rewrite (unlinks_resolve _ _ E2 E1).
      + apply unlinks_cleanup_cwd.
      + by apply resolve_cleanup_cwd_other. }
  rewrite (cleanup_cwd_fixed _ _ _ H1).
  assert (unlinks flt ["monarch_session.json"] E3 = false) as H2.
  { rewrite (unlinks_resolve _ _ E3 E2).
    - apply unlinks_cleanup_cwd.
    - by apply resolve_cleanup_cwd_other. }
  rewrite (cleanup_cwd_fixed _ _ _ H2).
  apply cleanup_cwd_fixed, unlinks_cleanup_cwd.
Qed.

(** ** When [delete_token] fails, and what a line is *)






(** X16.  What a line of the file is: a line contributes the pair
    [(key, value)] exactly when, stripped of the white space at both ends,
    it reads [key=value] with no ['='] in [key] and does not start with
    ['#'].  The line is cut at its first ['='] only, so that a value may
    hold ['='], and the white space next to the ['='] stays in the key or
    in the value. *)
Theorem line_entry_iff (line k v : string) :
  line_entry line = Some (k, v) ↔
  Str.strip line = k +:+ "=" +:+ v ∧
  Str.contains "=" k = false ∧
  Str.startswith "#" (Str.strip line) = false.
Proof.
  split; [apply line_entry_inv|].
  intros (HL & Hk & Hh). unfold line_entry, parse_line.
  rewrite Hh, HL.
  assert (Str.truthy (k +:+ "=" +:+ v) = true) as -> by by destruct k.
  rewrite contains_app. simpl. rewrite orb_true_r. simpl.
  change (k +:+ "=" +:+ v) with (k +:+ String "=" v).
  by rewrite split1_app.
Qed.

(** ** More runs on concrete inputs *)

Example line_with_two_equal_signs :
  line_entry ("TOKEN=abc==" +:+ Str.nl) = Some ("TOKEN", "abc==").
Proof. reflexivity. Qed.

Example line_with_spaces_around_equal_sign :
  line_entry ("  MONARCH_TOKEN = abc  " +:+ Str.nl)
  = Some ("MONARCH_TOKEN ", " abc").
Proof. reflexivity. Qed.

Example comment_and_bare_lines :
  line_entry ("#A=1" +:+ Str.nl) = None ∧
  line_entry ("bare word" +:+ Str.nl) = None ∧
  line_entry Str.nl = None.
Proof. split_and!; reflexivity. Qed.

Example cleanup_keeps_other_entries :
  cwd (_cleanup_old_session_files (plain_world ∅ None legacy_tree)).2
  = [(".mm", Dir [("cache", File "c")]); ("README.md", File "r")].
Proof. reflexivity. Qed.

Example session_without_token :
  save_authenticated_session {| client_token := "" |}
    (plain_world ∅ commented_file legacy_tree)
  = (Return tt,
     World ∅ commented_file legacy_tree no_fault
       [(WARNING, "MonarchMoney instance has no token to save")] []).
Proof. reflexivity. Qed.
